(** * The elvish compiler pass ([eval/compile.go]) as a shallow embedding

    The compiler walks a parsed syntax tree and builds a tree of ops while it
    threads one mutable record, the [Compiler], through every call: a stack of
    scopes and the capture map [enclosed].  Errors are Go panics: [errorf]
    panics through [util.Panic] and [Compile] recovers exactly those, any
    other panic leaves [Compile] as a panic.

    The embedding is a state-and-panic monad [M] over the [Compiler] record;
    maps are [gmap string _], slices are lists indexed as in the source. *)

From Stdlib Require Import ZArith String Ascii List Lia DecimalString.
From stdpp Require Import base option list gmap strings fin_maps.

Set Warnings "-register-all".

Local Open Scope string_scope.
Local Open Scope Z_scope.

(** ** Value types

    Modelled from the spec: the Go interface [Type] and its implementations
    are declared outside [compile.go]; the spec calls it an opaque tag
    (string, closure, or another runtime kind).  [ClosureType] is the one the
    compiler tests for by a type assertion.  A Go interface value may be
    [nil], hence [Type_] is [option ValueType]. *)
Inductive ValueType : Set :=
| StringType
| ClosureType
| OtherType (kind : nat).

Abbreviation Type_ := (option ValueType).

(** The type assertion [t.(ClosureType)] with the comma-ok form. *)
Definition isClosureType (t : Type_) : bool :=
  match t with
  | Some ClosureType => true
  | _ => false
  end.

(** ** Compiler state *)

(** [compilerEphemeral], embedded in [Compiler]. *)
Record Compiler : Type := mkCompiler {
  name : string;
  text : string;
  scopes : list (gmap string Type_);
  enclosed : gmap string Type_
}.

Definition set_scopes (cp : Compiler) (s : list (gmap string Type_))
  : Compiler :=
  mkCompiler (name cp) (text cp) s (enclosed cp).

Definition set_enclosed (cp : Compiler) (e : gmap string Type_) : Compiler :=
  mkCompiler (name cp) (text cp) (scopes cp) e.

(** Modelled from the spec: [util.NewContextualError] is outside
    [compile.go]; the spec says the error carries name, text, byte offset and
    message. *)
Record ContextualError : Type := NewContextualError {
  err_name : string;
  err_text : string;
  err_pos : Z;
  err_msg : string
}.

(** What a Go panic carries: the wrapper of [util.Panic] around an error, or
    any other value (a runtime error, a string given to [panic]). *)
Inductive PanicValue : Type :=
| Exception (e : ContextualError)
| GoPanic (msg : string).

Inductive Result (A : Type) : Type :=
| Ok (a : A) (cp : Compiler)
| Panicked (v : PanicValue).
Arguments Ok {A} a cp.
Arguments Panicked {A} v.

Definition M (A : Type) : Type := Compiler -> Result A.

Definition ret {A} (a : A) : M A := fun cp => Ok a cp.

Definition bind {A B} (m : M A) (k : A -> M B) : M B :=
  fun cp =>
    match m cp with
    | Ok a cp' => k a cp'
    | Panicked v => Panicked v
    end.

Definition panic {A} (v : PanicValue) : M A := fun _ => Panicked v.

Notation "'let*' x ':=' e 'in' k" := (bind e (fun x => k))
  (at level 10, x name, e at level 100, k at level 200).
Notation "e ';;' k" := (bind e (fun _ => k))
  (at level 100, k at level 200, right associativity).

(** [for i, x := range l { ops[i] = f(x) }] *)
Definition forM {A B} (f : A -> M B) : list A -> M (list B) :=
  fix go (l : list A) : M (list B) :=
    match l with
    | [] => ret []
    | x :: r => let* y := f x in let* ys := go r in ret (y :: ys)
    end.

(** [for _, x := range l { acc = f(acc, x) }] *)
Definition foldM {A S} (f : S -> A -> M S) : list A -> S -> M S :=
  fix go (l : list A) (acc : S) : M S :=
    match l with
    | [] => ret acc
    | x :: r => let* acc' := f acc x in go r acc'
    end.

Definition index_out_of_range : PanicValue :=
  GoPanic "runtime error: index out of range".

(** ** Scope stack *)

Definition pushScope : M unit :=
  fun cp => Ok tt (set_scopes cp (scopes cp ++ [∅])).

Definition popScope : M unit :=
  fun cp =>
    match scopes cp with
    | [] => Panicked index_out_of_range
    | _ => Ok tt (set_scopes cp (removelast (scopes cp)))
    end.

Definition pushVar (n : string) (t : Type_) : M unit :=
  fun cp =>
    match scopes cp with
    | [] => Panicked index_out_of_range
    | _ => Ok tt (set_scopes cp
                    (alter (insert n t) (length (scopes cp) - 1)%nat (scopes cp)))
    end.

Definition popVar (n : string) : M unit :=
  fun cp =>
    match scopes cp with
    | [] => Panicked index_out_of_range
    | _ => Ok tt (set_scopes cp
                    (alter (delete n) (length (scopes cp) - 1)%nat (scopes cp)))
    end.

Definition hasVarOnThisScope (n : string) : M bool :=
  fun cp =>
    match scopes cp !! (length (scopes cp) - 1)%nat with
    | None => Panicked index_out_of_range
    | Some fr => Ok (bool_decide (is_Some (fr !! n))) cp
    end.

Definition errorf {A} (p : Z) (msg : string) : M A :=
  fun cp => Panicked (Exception (NewContextualError (name cp) (text cp) p msg)).

(** [cp.scopes[i][name]]: a missing key reads as the nil [Type]. *)
Definition scopeAt (ss : list (gmap string Type_)) (i : nat) (n : string)
  : Type_ :=
  match ss !! i with
  | Some fr => match fr !! n with Some t => t | None => None end
  | None => None
  end.

(** The loop of [ResolveVar]: [k] is [i + 1], so that the loop stops after
    index 0.  Returns the index of the match and its type. *)
Fixpoint resolveLoop (ss : list (gmap string Type_)) (n : string) (k : nat)
  : option (nat * ValueType) :=
  match k with
  | O => None
  | S i =>
      match scopeAt ss i n with
      | Some t => Some (i, t)
      | None => resolveLoop ss n i
      end
  end.

Definition ResolveVar (n : string) : M Type_ :=
  fun cp =>
    let thisScope := Z.of_nat (length (scopes cp)) - 1 in
    match resolveLoop (scopes cp) n (length (scopes cp)) with
    | Some (i, t) =>
        if Z.of_nat i <? thisScope
        then Ok (Some t) (set_enclosed cp (<[n := Some t]> (enclosed cp)))
        else Ok (Some t) cp
    | None => Ok None cp
    end.

Definition mustResolveVar (n : string) (p : Z) : M Type_ :=
  let* t := ResolveVar n in
  match t with
  | Some _ => ret t
  | None => errorf p ("undefined variable $" ++ n)%string
  end.

Definition getEnclosed : M (gmap string Type_) := fun cp => Ok (enclosed cp) cp.

Definition setEnclosed (e : gmap string Type_) : M unit :=
  fun cp => Ok tt (set_enclosed cp e).

(** ** Syntax tree

    The [parse] package is outside [compile.go]; the node types are read off
    the fields the compiler uses.  A [PrimaryNode] is the pair of [Typ] and
    the [Node] that [Typ] promises, so one constructor per [Typ]; a [Typ] the
    compiler does not know is [UnknownPrimary].  [Redir] is an interface:
    [UnknownRedir] is any implementation other than the three the compiler
    knows.  [Pos] is an int, [Sigil] a rune, [Fd] a uintptr (64 bits). *)
Inductive PrimaryNode : Type :=
| StringPrimary (Pos : Z) (Text : string)
| VariablePrimary (Pos : Z) (Text : string)
| TablePrimary (Pos : Z) (Node : TableNode)
| ClosurePrimary (Pos : Z) (Node : ClosureNode)
| ListPrimary (Pos : Z) (Node : SpacedNode)
| ChanCapturePrimary (Pos : Z) (Node : PipelineNode)
| StatusCapturePrimary (Pos : Z) (Node : PipelineNode)
| UnknownPrimary (Pos : Z) (Typ : Z)
with TableNode : Type :=
| mkTableNode (List : list CompoundNode) (Dict : list TablePair)
with TablePair : Type :=
| mkTablePair (Key Value : CompoundNode)
with ClosureNode : Type :=
| mkClosureNode (Chunk : ChunkNode)
with ChunkNode : Type :=
| mkChunkNode (Nodes : list PipelineNode)
with SpacedNode : Type :=
| mkSpacedNode (Nodes : list CompoundNode)
with CompoundNode : Type :=
| mkCompoundNode (Pos : Z) (Sigil : Z) (Nodes : list SubscriptNode)
with SubscriptNode : Type :=
| mkSubscriptNode (Left : PrimaryNode) (Right : option CompoundNode)
with PipelineNode : Type :=
| mkPipelineNode (Pos : Z) (Nodes : list FormNode)
with FormNode : Type :=
| mkFormNode (Pos : Z) (Command : CompoundNode) (Args : SpacedNode)
             (Redirs : list Redir)
with Redir : Type :=
| CloseRedir (Pos : Z) (fd : Z)
| FdRedir (Pos : Z) (fd : Z) (OldFd : Z)
| FilenameRedir (Pos : Z) (fd : Z) (Flag : Z) (Filename : CompoundNode)
| UnknownRedir (fd : Z).

Definition PrimaryPos (fn : PrimaryNode) : Z :=
  match fn with
  | StringPrimary p _ | VariablePrimary p _ | TablePrimary p _
  | ClosurePrimary p _ | ListPrimary p _ | ChanCapturePrimary p _
  | StatusCapturePrimary p _ | UnknownPrimary p _ => p
  end.

Definition CompoundPos (tn : CompoundNode) : Z :=
  match tn with mkCompoundNode p _ _ => p end.

(** [rd.Fd()] *)
Definition Fd (rd : Redir) : Z :=
  match rd with
  | CloseRedir _ fd | FdRedir _ fd _ | FilenameRedir _ fd _ _
  | UnknownRedir fd => fd
  end.

(** ** Machine integers and runes *)

Definition uintptr_modulus : Z := 2 ^ 64.

(** [x + 1] on uintptr. *)
Definition uintptr_succ (x : Z) : Z := (x + 1) mod uintptr_modulus.

(** [int(x)] for a uintptr [x]. *)
Definition int_of_uintptr (x : Z) : Z :=
  let y := x mod uintptr_modulus in
  if y <? 2 ^ 63 then y else y - uintptr_modulus.

Definition chr (z : Z) : ascii := ascii_of_N (Z.to_N z).

(** [string(r)] for a rune [r]: its UTF-8 encoding, U+FFFD for an invalid
    code point. *)
Definition string_of_rune (r : Z) : string :=
  if (r <? 0) || (1114111 <? r) || ((55296 <=? r) && (r <=? 57343)) then
    String (chr 239) (String (chr 191) (String (chr 189) EmptyString))
  else if r <? 128 then
    String (chr r) EmptyString
  else if r <? 2048 then
    String (chr (Z.lor 192 (Z.shiftr r 6)))
      (String (chr (Z.lor 128 (Z.land r 63))) EmptyString)
  else if r <? 65536 then
    String (chr (Z.lor 224 (Z.shiftr r 12)))
      (String (chr (Z.lor 128 (Z.land (Z.shiftr r 6) 63)))
         (String (chr (Z.lor 128 (Z.land r 63))) EmptyString))
  else
    String (chr (Z.lor 240 (Z.shiftr r 18)))
      (String (chr (Z.lor 128 (Z.land (Z.shiftr r 12) 63)))
         (String (chr (Z.lor 128 (Z.land (Z.shiftr r 6) 63)))
            (String (chr (Z.lor 128 (Z.land r 63))) EmptyString))).

(** ** Builtin registries

    [builtinSpecials], [builtinFuncs], the types [builtinFunc] and [strOp]
    and the constant [parse.NoSigil] are declared outside [compile.go]: they
    are the parameters of the development.  A special form's [compile]
    receives the compiler and the raw form node. *)
Record builtinSpecial (strOp : Type) : Type := mkBuiltinSpecial {
  compile : FormNode -> M strOp
}.
Arguments mkBuiltinSpecial {strOp} compile.
Arguments compile {strOp} b fn.

Class Builtins : Type := {
  builtinFunc : Type;
  strOp : Type;
  NoSigil : Z;
  builtinSpecials : gmap string (builtinSpecial strOp);
  builtinFuncs : gmap string builtinFunc
}.

Inductive commandType : Set :=
| commandBuiltinFunction
| commandBuiltinSpecial
| commandDefinedFunction
| commandClosure
| commandExternal.

Global Instance commandType_eq_dec : EqDecision commandType.
Proof. solve_decision. Defined.

(** [commandResolution]; the two handles are pointers, nil until set. *)
Record commandResolution `{Builtins} : Type := mkCommandResolution {
  cr_commandType : commandType;
  cr_builtinFunc : option builtinFunc;
  cr_builtinSpecial : option (builtinSpecial strOp);
  cr_specialOp : option strOp
}.

(** [&commandResolution{}] *)
Definition newCommandResolution `{Builtins} : commandResolution :=
  mkCommandResolution _ commandBuiltinFunction None None None.

Definition resolveCommand `{Builtins} (n : string) (cr : commandResolution)
  : M commandResolution :=
  let* t := ResolveVar ("fn-" ++ n)%string in
  if isClosureType t then
    ret (mkCommandResolution _ commandDefinedFunction
           (cr_builtinFunc cr) (cr_builtinSpecial cr) (cr_specialOp cr))
  else
    match builtinSpecials !! n with
    | Some bi =>
        ret (mkCommandResolution _ commandBuiltinSpecial
               (cr_builtinFunc cr) (Some bi) (cr_specialOp cr))
    | None =>
        match builtinFuncs !! n with
        | Some bi =>
            ret (mkCommandResolution _ commandBuiltinFunction
                   (Some bi) (cr_builtinSpecial cr) (cr_specialOp cr))
        | None =>
            ret (mkCommandResolution _ commandExternal
                   (cr_builtinFunc cr) (cr_builtinSpecial cr) (cr_specialOp cr))
        end
    end.

(** ** Ops

    Modelled from the spec: the op combinators ([makeString], [makeVar],
    [combineForm], ...) are outside [compile.go]; the spec describes them as
    pure constructors that assemble an op from the children's ops and the
    resolved metadata.  An op is therefore the tree of the combinator calls
    that built it.  [valuesOpZero] is the zero [valuesOp] of an unassigned
    [var tlist valuesOp]; a nil [portOp] is [None]; a nil and an empty port
    slice are both the empty list. *)
Inductive valuesOp `{Builtins} : Type :=
| valuesOpZero
| makeString (text : string)
| makeVarOp (n : string) (t : Type_) (p : Z)
| combineTable (list_ : valuesOp) (keys values : list valuesOp) (p : Z)
| combineClosure (ops : list valuesOp) (captured : gmap string Type_)
| combineSpaced (ops : list valuesOp)
| combineCompound (ops : list valuesOp)
| combineSubscript (left right : valuesOp) (lp rp : Z)
| combineChanCapture (op : valuesOp)
| combinePipeline (ops : list stateUpdatesOp) (p : Z)
with stateUpdatesOp `{Builtins} : Type :=
| combineForm (cmdOp tlist : valuesOp) (ports : list (option portOp))
              (cr : commandResolution) (p : Z)
with portOp `{Builtins} : Type :=
| closePortOp
| fdPortOp (oldFd : Z)
| filenamePortOp (fnameOp : valuesOp) (flag : Z) (fnamePos rPos : Z).

Inductive Op `{Builtins} : Type :=
| combineChunk (ops : list valuesOp).

Section Compile.
Context `{B : Builtins}.

(** Modelled from the spec: [makeVar] is outside [compile.go]; a variable
    primary resolves the name through the scope stack, fails with
    "undefined variable" when unresolved, and yields the op that reads the
    binding. *)
Definition makeVar (n : string) (p : Z) : M valuesOp :=
  let* t := mustResolveVar n p in
  ret (makeVarOp n t p).

Definition command_msg : string := "command must be a string or closure".

(** First loop of [compileForm]: the size of the port table. *)
Definition countPorts (redirs : list Redir) : Z :=
  fold_left
    (fun nports rd =>
       if nports <? uintptr_succ (Fd rd) then uintptr_succ (Fd rd) else nports)
    redirs 0.

(** [ports[fd] = p] on a slice; an index outside the slice panics. *)
Definition setPort (ports : list (option portOp)) (fd : Z) (p : portOp)
  : M (list (option portOp)) :=
  if (0 <=? fd) && (fd <? Z.of_nat (length ports))
  then ret (<[Z.to_nat fd := Some p]> ports)
  else panic index_out_of_range.

(** Second loop of [compileForm], over a redirection compiler: its body
    [ports[rd.Fd()] = cp.compileRedir(rd)], then the loop on the table
    made by [make([]portOp, nports)]. *)
Definition portStep (compileRedir : Redir -> M portOp)
    (ports : list (option portOp)) (rd : Redir) : M (list (option portOp)) :=
  let* p := compileRedir rd in setPort ports (Fd rd) p.

Definition compilePorts (compileRedir : Redir -> M portOp)
    (redirs : list Redir) (nports : Z) : M (list (option portOp)) :=
  foldM (portStep compileRedir) redirs (replicate (Z.to_nat nports) None).

(** The loop of [compilePrimary] that hands a closure's captures on to
    the enclosing unit: its body, then the loop.  Go ranges over a map in
    an unspecified order; the model takes the order of [map_to_list], and
    [forwardLoop] below holds for every order. *)
Definition forwardStep (_ : unit) (kv : string * Type_) : M unit :=
  let* has := hasVarOnThisScope kv.1 in
  if has then ret tt
  else fun cp => Ok tt (set_enclosed cp (<[kv.1 := kv.2]> (enclosed cp))).

Definition forwardEnclosed (enc : gmap string Type_) : M unit :=
  foldM forwardStep (map_to_list enc) tt.

(** [fmt.Sprintln("bad PrimaryNode type", fn.Typ)], with [Typ] printed as
    the integer it is. *)
Definition bad_primary_msg (typ : Z) : string :=
  ("bad PrimaryNode type " ++
   NilZero.string_of_int (Z.to_int typ) ++
   String (chr 10) EmptyString)%string.

Fixpoint compileClosure (cn : ClosureNode) {struct cn}
  : M (valuesOp * gmap string Type_) :=
  match cn with
  | mkClosureNode (mkChunkNode nodes) =>
      pushScope ;;
      let* ops := forM compilePipeline nodes in
      let* enc := getEnclosed in
      setEnclosed ∅ ;;
      popScope ;;
      ret (combineClosure ops enc, enc)
  end

with compilePipeline (pn : PipelineNode) {struct pn} : M valuesOp :=
  match pn with
  | mkPipelineNode pos nodes =>
      let* ops := forM compileForm nodes in
      ret (combinePipeline ops pos)
  end

with compileForm (fn : FormNode) {struct fn} : M stateUpdatesOp :=
  match fn with
  | mkFormNode pos (mkCompoundNode cpos _ cnodes) args redirs =>
      match cnodes with
      | [mkSubscriptNode command None] =>
          let* cmdOp := compilePrimary command in
          let* resolution :=
            match command with
            | StringPrimary _ text => resolveCommand text newCommandResolution
            | ClosurePrimary _ _ =>
                ret (mkCommandResolution _ commandClosure None None None)
            | _ => errorf cpos command_msg
            end in
          let* ports := compilePorts compileRedir redirs (countPorts redirs) in
          if decide (cr_commandType resolution = commandBuiltinSpecial) then
            match cr_builtinSpecial resolution with
            | Some bs =>
                let* sop := compile bs fn in
                ret (combineForm cmdOp valuesOpZero ports
                       (mkCommandResolution _ (cr_commandType resolution)
                          (cr_builtinFunc resolution)
                          (cr_builtinSpecial resolution) (Some sop))
                       pos)
            | None => panic (GoPanic "runtime error: nil pointer dereference")
            end
          else
            let* tlist := compileSpaced args in
            ret (combineForm cmdOp tlist ports resolution pos)
      | _ => errorf cpos command_msg
      end
  end

with compileRedir (r : Redir) {struct r} : M portOp :=
  match r with
  | CloseRedir _ _ => ret closePortOp
  | FdRedir _ _ oldFd => ret (fdPortOp (int_of_uintptr oldFd))
  | FilenameRedir pos _ flag filename =>
      let* fnameOp := compileCompound filename in
      ret (filenamePortOp fnameOp flag (CompoundPos filename) pos)
  | UnknownRedir _ => panic (GoPanic "bad Redir type")
  end

with compileSpaced (ln : SpacedNode) {struct ln} : M valuesOp :=
  match ln with
  | mkSpacedNode nodes =>
      let* ops := forM compileCompound nodes in
      ret (combineSpaced ops)
  end

with compileCompound (tn : CompoundNode) {struct tn} : M valuesOp :=
  match tn with
  | mkCompoundNode pos sigil nodes =>
      let* ops := forM compileSubscript nodes in
      let op := combineCompound ops in
      if sigil =? NoSigil then ret op
      else
        let cmd := string_of_rune sigil in
        let* cr := resolveCommand cmd newCommandResolution in
        let fop := combineForm (makeString cmd) op [] cr pos in
        let pop := combinePipeline [fop] pos in
        ret (combineChanCapture pop)
  end

with compileSubscript (sn : SubscriptNode) {struct sn} : M valuesOp :=
  match sn with
  | mkSubscriptNode l None => compilePrimary l
  | mkSubscriptNode l (Some r) =>
      let* left := compilePrimary l in
      let* right := compileCompound r in
      ret (combineSubscript left right (PrimaryPos l) (CompoundPos r))
  end

with compilePrimary (fn : PrimaryNode) {struct fn} : M valuesOp :=
  match fn with
  | StringPrimary _ text => ret (makeString text)
  | VariablePrimary pos n => makeVar n pos
  | TablePrimary pos (mkTableNode l dict) =>
      let* lops := forM compileCompound l in
      let* kvs := forM (fun tp =>
                          match tp with
                          | mkTablePair k v =>
                              let* kop := compileCompound k in
                              let* vop := compileCompound v in
                              ret (kop, vop)
                          end) dict in
      ret (combineTable (combineSpaced lops) (kvs.*1) (kvs.*2) pos)
  | ClosurePrimary _ cn =>
      let* r := compileClosure cn in
      forwardEnclosed r.2 ;;
      ret r.1
  | ListPrimary _ sn => compileSpaced sn
  | ChanCapturePrimary _ pn =>
      let* op := compilePipeline pn in
      ret (combineChanCapture op)
  | StatusCapturePrimary _ pn => compilePipeline pn
  | UnknownPrimary _ typ => panic (GoPanic (bad_primary_msg typ))
  end.

(** [compileCompounds]: the slice version used for a table's list part and
    by [compileSpaced]. *)
Definition compileCompounds (tns : list CompoundNode) : M valuesOp :=
  let* ops := forM compileCompound tns in
  ret (combineSpaced ops).

Definition compileChunk (cn : ChunkNode) : M Op :=
  match cn with
  | mkChunkNode nodes =>
      let* ops := forM compilePipeline nodes in
      ret (combineChunk ops)
  end.

(** [NewCompiler]: a compiler with the zero [compilerEphemeral]. *)
Definition NewCompiler : Compiler := mkCompiler "" "" [] ∅.

Definition startCompile (nm txt : string) (scope : gmap string Type_)
  : Compiler :=
  mkCompiler nm txt [scope] ∅.

(** [stopCompile]: the compiler is left with the zero [compilerEphemeral],
    on return and on panic alike; it is no part of what [Compile] hands to
    its caller. *)
Definition stopCompile : Compiler := mkCompiler "" "" [] ∅.

(** What [Compile] does to its caller: it returns [(op, err)], or a panic
    that [util.Recover] did not stop goes on. *)
Inductive CompileOutcome : Type :=
| Returned (op : option Op) (err : option ContextualError)
| Propagated (v : PanicValue).

(** Modelled from the spec: [util.Recover] is outside [compile.go]; it
    turns a panic raised by [util.Panic] into the returned error and lets
    any other panic go on (internal violations are not converted into a
    user-facing error). *)
Definition Recover (v : PanicValue) : CompileOutcome :=
  match v with
  | Exception e => Returned None (Some e)
  | GoPanic _ => Propagated v
  end.

Definition Compile (nm txt : string) (n : ChunkNode) (scope : gmap string Type_)
  : CompileOutcome :=
  match compileChunk n (startCompile nm txt scope) with
  | Ok op _ => Returned (Some op) None
  | Panicked v => Recover v
  end.

End Compile.

(** ** A sample registry and sample syntax trees

    Used to run the compiler on concrete inputs.  The special form [var]
    binds each literal argument in the innermost frame (through [pushVar]),
    as a declaration form does; [echo] is a builtin function; [var] is also
    registered as a builtin function, to exercise the priority order. *)

Definition bindArg (tn : CompoundNode) : M unit :=
  match tn with
  | mkCompoundNode _ _ [mkSubscriptNode (StringPrimary _ n) None] =>
      pushVar n (Some StringType)
  | _ => ret tt
  end.

Definition sampleVar : builtinSpecial string :=
  mkBuiltinSpecial
    (fun fn =>
       match fn with
       | mkFormNode _ _ (mkSpacedNode args) _ =>
           foldM (fun (_ : unit) tn => bindArg tn) args tt ;; ret "var"
       end).

Definition sampleBuiltins : Builtins :=
  {| builtinFunc := string;
     strOp := string;
     NoSigil := 0;
     builtinSpecials := {[ "var" := sampleVar ]};
     builtinFuncs := {[ "echo" := "echo-impl"; "var" := "var-impl" ]} |}.

(** A bare word, a variable reference, a form with a literal command, a
    closure literal and a form whose command is a closure literal; words
    carry no sigil. *)
Definition word `{Builtins} (p : Z) (s : string) : CompoundNode :=
  mkCompoundNode p NoSigil [mkSubscriptNode (StringPrimary p s) None].

Definition varref `{Builtins} (p : Z) (s : string) : CompoundNode :=
  mkCompoundNode p NoSigil [mkSubscriptNode (VariablePrimary p s) None].

Definition form `{Builtins} (p : Z) (cmd : string) (args : list CompoundNode)
    (rs : list Redir) : FormNode :=
  mkFormNode p (word p cmd) (mkSpacedNode args) rs.

Definition closure (p : Z) (body : list PipelineNode) : PrimaryNode :=
  ClosurePrimary p (mkClosureNode (mkChunkNode body)).

Definition closureForm `{Builtins} (p : Z) (body : list PipelineNode)
  : FormNode :=
  mkFormNode p
    (mkCompoundNode p NoSigil [mkSubscriptNode (closure p body) None])
    (mkSpacedNode []) [].

(** ** Specification functions

    Read-only views of the state and of the results, used to state the
    properties. *)

(** The first match of [ResolveVar]'s loop in the state [cp]. *)
Definition resolved (cp : Compiler) (n : string) : option (nat * ValueType) :=
  resolveLoop (scopes cp) n (length (scopes cp)).

(** The result and the effect of [ResolveVar] as functions of the scopes. *)
Definition typeOf (ss : list (gmap string Type_)) (n : string) : Type_ :=
  snd <$> resolveLoop ss n (length ss).

Definition captureOf (ss : list (gmap string Type_)) (e : gmap string Type_)
    (n : string) : gmap string Type_ :=
  match resolveLoop ss n (length ss) with
  | Some (i, t) =>
      if decide (i < length ss - 1)%nat then <[n := Some t]> e else e
  | None => e
  end.

Definition classify `{Builtins} (t : Type_) (n : string) (cr : commandResolution)
  : commandResolution :=
  if isClosureType t then
    mkCommandResolution _ commandDefinedFunction
      (cr_builtinFunc cr) (cr_builtinSpecial cr) (cr_specialOp cr)
  else match builtinSpecials !! n with
       | Some bi =>
           mkCommandResolution _ commandBuiltinSpecial
             (cr_builtinFunc cr) (Some bi) (cr_specialOp cr)
       | None =>
           match builtinFuncs !! n with
           | Some bi =>
               mkCommandResolution _ commandBuiltinFunction
                 (Some bi) (cr_builtinSpecial cr) (cr_specialOp cr)
           | None =>
               mkCommandResolution _ commandExternal
                 (cr_builtinFunc cr) (cr_builtinSpecial cr) (cr_specialOp cr)
           end
       end.

Definition FormRedirs (fn : FormNode) : list Redir :=
  match fn with mkFormNode _ _ _ redirs => redirs end.

Definition formPorts `{Builtins} (op : stateUpdatesOp) : list (option portOp) :=
  match op with combineForm _ _ ports _ _ => ports end.

(** Closures that refer to a variable and bind it, in both orders, and
    closures nested in closures. *)
Section ScenarioTrees.
Context `{Builtins}.
Variables (x cmd b : string) (bargs : SpacedNode).
Variables (p pos pb pc pi : Z).

(** [cmd $x]: a form that refers to [x]. *)
Definition refForm : FormNode := form p cmd [varref pos x] [].

(** [b ...]: a form whose command is the special form [b]. *)
Definition bindForm : FormNode := mkFormNode pb (word pb b) bargs [].

(** [{ cmd $x; b ... }] and [{ b ...; cmd $x }] *)
Definition refThenBind : ClosureNode :=
  mkClosureNode (mkChunkNode [mkPipelineNode pc [refForm];
                              mkPipelineNode pi [bindForm]]).

Definition bindThenRef : ClosureNode :=
  mkClosureNode (mkChunkNode [mkPipelineNode pi [bindForm];
                              mkPipelineNode pc [refForm]]).

(** [{ { cmd $x } }] and [{ b ...; { cmd $x } }] *)
Definition nested : ClosureNode :=
  mkClosureNode
    (mkChunkNode
       [mkPipelineNode pc [closureForm pi [mkPipelineNode p [refForm]]]]).

Definition nestedRebound : ClosureNode :=
  mkClosureNode
    (mkChunkNode
       [mkPipelineNode pb [bindForm];
        mkPipelineNode pc [closureForm pi [mkPipelineNode p [refForm]]]]).

End ScenarioTrees.

(** ** The discipline of a compilation step

    What a piece of compilation may do to the compiler, used to state the
    invariants of the whole pass. *)

Definition SubscriptLeft (sn : SubscriptNode) : PrimaryNode :=
  match sn with mkSubscriptNode l _ => l end.

Definition CompoundNodes (tn : CompoundNode) : list SubscriptNode :=
  match tn with mkCompoundNode _ _ nodes => nodes end.

(** The step keeps the name, the text and the depth of the stack, and
    every frame below the innermost one. *)
Definition frame_ok (cp cp' : Compiler) : Prop :=
  name cp' = name cp /\ text cp' = text cp /\
  length (scopes cp') = length (scopes cp) /\
  forall i, (i < length (scopes cp) - 1)%nat -> scopes cp' !! i = scopes cp !! i.

(** Every entry of the capture map [e] is a name that one of the first
    [depth] frames of [ss] binds, with the recorded type, which is not
    nil. *)
Definition captures_sound (ss : list (gmap string Type_)) (depth : nat)
    (e : gmap string Type_) : Prop :=
  forall k v, e !! k = Some v ->
    exists i t, v = Some t /\ (i < depth)%nat /\ scopeAt ss i k = Some t.

(** [enclosed] holds names bound below the innermost frame only. *)
Definition enclosed_sound (cp : Compiler) : Prop :=
  captures_sound (scopes cp) (length (scopes cp) - 1) (enclosed cp).

(** A panic raised through [errorf] carries the name and text of [cp]. *)
Definition error_in_context (cp : Compiler) (v : PanicValue) : Prop :=
  match v with
  | Exception e => err_name e = name cp /\ err_text e = text cp
  | GoPanic _ => True
  end.

Definition behaves {A} (m : M A) : Prop :=
  forall cp,
    match m cp with
    | Ok _ cp' => frame_ok cp cp' /\ (enclosed_sound cp -> enclosed_sound cp')
    | Panicked v => error_in_context cp v
    end.

(** The special forms of the registry keep the discipline. *)
Definition specials_behave `{Builtins} : Prop :=
  forall n bs fn, builtinSpecials !! n = Some bs -> behaves (compile bs fn).

(** What a closure does to the enclosing unit: the stack is as before,
    [enclosed] is empty, and the captures of the closure are names bound
    in the frames of the enclosing unit. *)
Definition closure_behaves `{Builtins} (cn : ClosureNode) : Prop :=
  forall cp,
    match compileClosure cn cp with
    | Ok r cp' =>
        name cp' = name cp /\ text cp' = text cp /\
        scopes cp' = scopes cp /\ enclosed cp' = ∅ /\
        (enclosed_sound cp ->
         captures_sound (scopes cp) (length (scopes cp)) r.2)
    | Panicked v => error_in_context cp v
    end.

(** ** Trees that a parser can produce

    A tree is well formed when it holds no primary and no redirection of a
    kind the compiler does not know, and every redirected descriptor is a
    uintptr other than the largest one. *)

Definition fd_ok (fd : Z) : bool := (0 <=? fd) && (fd <? uintptr_modulus - 1).

Fixpoint wfPrimary (fn : PrimaryNode) {struct fn} : bool :=
  match fn with
  | StringPrimary _ _ | VariablePrimary _ _ => true
  | TablePrimary _ (mkTableNode l d) =>
      forallb wfCompound l &&
      forallb (fun tp => match tp with
                         | mkTablePair k v => wfCompound k && wfCompound v
                         end) d
  | ClosurePrimary _ (mkClosureNode (mkChunkNode nodes)) =>
      forallb wfPipeline nodes
  | ListPrimary _ (mkSpacedNode nodes) => forallb wfCompound nodes
  | ChanCapturePrimary _ pn | StatusCapturePrimary _ pn => wfPipeline pn
  | UnknownPrimary _ _ => false
  end
with wfCompound (tn : CompoundNode) {struct tn} : bool :=
  match tn with
  | mkCompoundNode _ _ nodes => forallb wfSubscript nodes
  end
with wfSubscript (sn : SubscriptNode) {struct sn} : bool :=
  match sn with
  | mkSubscriptNode l None => wfPrimary l
  | mkSubscriptNode l (Some r) => wfPrimary l && wfCompound r
  end
with wfPipeline (pn : PipelineNode) {struct pn} : bool :=
  match pn with
  | mkPipelineNode _ nodes => forallb wfForm nodes
  end
with wfForm (fn : FormNode) {struct fn} : bool :=
  match fn with
  | mkFormNode _ c (mkSpacedNode args) rs =>
      wfCompound c && forallb wfCompound args && forallb wfRedir rs
  end
with wfRedir (rd : Redir) {struct rd} : bool :=
  match rd with
  | CloseRedir _ fd | FdRedir _ fd _ => fd_ok fd
  | FilenameRedir _ fd _ f => fd_ok fd && wfCompound f
  | UnknownRedir _ => false
  end.

Definition wfChunk (ch : ChunkNode) : bool :=
  match ch with mkChunkNode nodes => forallb wfPipeline nodes end.

Definition wfClosure (cn : ClosureNode) : bool :=
  match cn with mkClosureNode ch => wfChunk ch end.

Definition wfSpaced (ln : SpacedNode) : bool :=
  match ln with mkSpacedNode nodes => forallb wfCompound nodes end.

Definition wfPair (tp : TablePair) : bool :=
  match tp with mkTablePair k v => wfCompound k && wfCompound v end.

Definition wfTable (t : TableNode) : bool :=
  match t with mkTableNode l d => forallb wfCompound l && forallb wfPair d end.

(** A step that, with a frame on the stack, does not end in a Go panic. *)
Definition calm {A} (m : M A) : Prop :=
  forall cp, scopes cp <> [] -> forall msg, m cp <> Panicked (GoPanic msg).

Definition specials_calm `{Builtins} : Prop :=
  forall n bs fn, builtinSpecials !! n = Some bs -> calm (compile bs fn).

(** ** Reading off a result *)

Definition succeeds {A} (r : Result A) : bool :=
  match r with Ok _ _ => true | Panicked _ => false end.

Definition valueOf {A} (r : Result A) (d : A) : A :=
  match r with Ok a _ => a | Panicked _ => d end.

Definition stateOf {A} (r : Result A) : Compiler :=
  match r with Ok _ cp => cp | Panicked _ => NewCompiler end.

(** Sample states and programs. *)
Section SampleTrees.
#[local] Existing Instance sampleBuiltins.

(** Three frames: [fn-echo] is a closure in the root frame, [fn-a] is a
    string in the two frames above it. *)
Definition sampleShadowed : Compiler :=
  mkCompiler "n" "t"
    [ {[ "fn-echo" := Some ClosureType ]}; {[ "fn-a" := Some StringType ]};
      {[ "fn-a" := Some StringType ]} ] ∅.

(** One frame, the root scope, with [x] of some other type; nothing
    captured. *)
Definition sampleRoot : Compiler :=
  mkCompiler "script" "{ { echo $x } }" [ {[ "x" := Some (OtherType 7) ]} ] ∅.

(** [{ echo $x; { echo hi } }] *)
Definition leakSource : string := "{ echo $x; { echo hi } }".

Definition leakChunk : ChunkNode :=
  mkChunkNode
    [ mkPipelineNode 0
        [ closureForm 0
            [ mkPipelineNode 2 [ form 2 "echo" [varref 7 "x"] [] ];
              mkPipelineNode 11
                [ closureForm 11
                    [ mkPipelineNode 13
                        [ form 13 "echo" [word 18 "hi"] [] ] ] ] ] ] ].

(** [{ echo $x; var x; { echo hi } }] *)
Definition lossSource : string := "{ echo $x; var x; { echo hi } }".

Definition lossChunk : ChunkNode :=
  mkChunkNode
    [ mkPipelineNode 0
        [ closureForm 0
            [ mkPipelineNode 2 [ form 2 "echo" [varref 7 "x"] [] ];
              mkPipelineNode 11 [ form 11 "var" [word 15 "x"] [] ];
              mkPipelineNode 18
                [ closureForm 18
                    [ mkPipelineNode 20
                        [ form 20 "echo" [word 25 "hi"] [] ] ] ] ] ] ].

(** The resolutions and the ops of the forms of the two programs. *)
Definition echoResolution : commandResolution :=
  mkCommandResolution _ commandBuiltinFunction (Some "echo-impl") None None.

Definition closureResolution : commandResolution :=
  mkCommandResolution _ commandClosure None None None.

Definition varResolution : commandResolution :=
  mkCommandResolution _ commandBuiltinSpecial None (Some sampleVar) (Some "var").

Definition echoX (q : Z) : valuesOp :=
  combinePipeline
    [combineForm (makeString "echo")
       (combineSpaced [combineCompound [makeVarOp "x" (Some StringType) (q + 5)]])
       [] echoResolution q] q.

Definition echoHi (q : Z) : valuesOp :=
  combinePipeline
    [combineForm (makeString "echo")
       (combineSpaced [combineCompound [makeString "hi"]])
       [] echoResolution q] q.

Definition varX (q : Z) : valuesOp :=
  combinePipeline
    [combineForm (makeString "var") valuesOpZero [] varResolution q] q.

(** A closure literal used as a command, as an op. *)
Definition closureCall (q : Z) (ops : list valuesOp)
    (captured : gmap string Type_) : valuesOp :=
  combinePipeline
    [combineForm (combineClosure ops captured) (combineSpaced []) []
       closureResolution q] q.

(** The closure [{ echo $x; { echo hi } }] of [leakChunk]. *)
Definition leakClosure : ClosureNode :=
  mkClosureNode
    (mkChunkNode
       [ mkPipelineNode 2 [ form 2 "echo" [varref 7 "x"] [] ];
         mkPipelineNode 11
           [ closureForm 11
               [ mkPipelineNode 13 [ form 13 "echo" [word 18 "hi"] [] ] ] ] ]).

(** [echo ok; echo $y; echo >?]: the second pipeline refers to an unbound
    variable, the third holds a redirection of an unknown kind. *)
Definition failingChunk : ChunkNode :=
  mkChunkNode
    ([ mkPipelineNode 0 [ form 0 "echo" [word 5 "ok"] [] ] ] ++
     mkPipelineNode 9 [ form 9 "echo" [varref 14 "y"] [] ] ::
     [ mkPipelineNode 18 [ form 18 "echo" [] [UnknownRedir 1] ] ]).

(** The closure [{ echo $x; var x; { echo hi } }] of [lossChunk]. *)
Definition lossClosure : ClosureNode :=
  mkClosureNode
    (mkChunkNode
       [ mkPipelineNode 2 [ form 2 "echo" [varref 7 "x"] [] ];
         mkPipelineNode 11 [ form 11 "var" [word 15 "x"] [] ];
         mkPipelineNode 18
           [ closureForm 18
               [ mkPipelineNode 20 [ form 20 "echo" [word 25 "hi"] [] ] ] ] ]).

End SampleTrees.

(** * Properties *)

(** ** The monad *)

Lemma bind_Ok {A B} (m : M A) (k : A -> M B) cp b cp' :
  bind m k cp = Ok b cp' ->
  exists a cp1, m cp = Ok a cp1 /\ k a cp1 = Ok b cp'.
Proof.
  unfold bind. destruct (m cp) as [a cp1|v]; [eauto | discriminate].
Qed.

Lemma bind_eq_Ok {A B} (m : M A) (k : A -> M B) cp a cp1 :
  m cp = Ok a cp1 -> bind m k cp = k a cp1.
Proof. unfold bind. intros ->. reflexivity. Qed.

Lemma bind_eq_Panicked {A B} (m : M A) (k : A -> M B) cp v :
  m cp = Panicked v -> bind m k cp = Panicked v.
Proof. unfold bind. intros ->. reflexivity. Qed.

(** ** Variable resolution *)

Lemma resolveLoop_Some ss n k i t :
  resolveLoop ss n k = Some (i, t) ->
  (i < k)%nat /\ scopeAt ss i n = Some t /\
  forall j, (i < j < k)%nat -> scopeAt ss j n = None.
Proof.
  induction k as [|k IH]; simpl; [discriminate|].
  destruct (scopeAt ss k n) as [t'|] eqn:E.
  - intros [= <- <-]. repeat split; [lia | assumption | intros j Hj; lia].
  - intros Hk. destruct (IH Hk) as (Hlt & Hi & Hj).
    repeat split; [lia | assumption |].
    intros j Hjk. destruct (decide (j = k)) as [->|]; [assumption|].
    apply Hj. lia.
Qed.

Lemma resolveLoop_None ss n k :
  resolveLoop ss n k = None <-> forall j, (j < k)%nat -> scopeAt ss j n = None.
Proof.
  induction k as [|k IH]; simpl.
  - split; [intros _ j Hj; lia | reflexivity].
  - destruct (scopeAt ss k n) as [t'|] eqn:E.
    + split; [discriminate|]. intros Hall. rewrite Hall in E by lia. discriminate.
    + rewrite IH. split.
      * intros Hall j Hj. destruct (decide (j = k)) as [->|]; [assumption|].
        apply Hall. lia.
      * intros Hall j Hj. apply Hall. lia.
Qed.

Lemma resolveLoop_found ss n k i t :
  (i < k)%nat -> scopeAt ss i n = Some t ->
  (forall j, (i < j < k)%nat -> scopeAt ss j n = None) ->
  resolveLoop ss n k = Some (i, t).
Proof.
  intros Hlt Hi Hj.
  destruct (resolveLoop ss n k) as [[i' t']|] eqn:E.
  - apply resolveLoop_Some in E as (Hlt' & Hi' & Hj').
    destruct (lt_eq_lt_dec i i') as [[Hc| ->]|Hc].
    + rewrite Hj in Hi' by lia. discriminate.
    + congruence.
    + rewrite Hj' in Hi by lia. discriminate.
  - rewrite resolveLoop_None in E. rewrite E in Hi by assumption. discriminate.
Qed.

(** What [ResolveVar] does, in one equation: it never fails, never touches
    the scopes, and records a capture exactly when the first match, from
    the innermost frame outwards, is below the innermost frame. *)
Lemma ResolveVar_found n cp i t :
  resolved cp n = Some (i, t) ->
  ResolveVar n cp =
    Ok (Some t)
       (if decide (i < length (scopes cp) - 1)%nat
        then set_enclosed cp (<[n := Some t]> (enclosed cp)) else cp).
Proof.
  unfold resolved, ResolveVar. intros ->.
  destruct (Z.ltb_spec (Z.of_nat i) (Z.of_nat (length (scopes cp)) - 1));
    destruct (decide (i < length (scopes cp) - 1)%nat); try reflexivity; lia.
Qed.

Lemma ResolveVar_not_found n cp :
  resolved cp n = None -> ResolveVar n cp = Ok None cp.
Proof. unfold resolved, ResolveVar. intros ->. reflexivity. Qed.

(** ** Command resolution *)

Lemma resolveCommand_eq `{Builtins} (n : string) (cr : commandResolution) cp t cp' :
  ResolveVar ("fn-" ++ n)%string cp = Ok t cp' ->
  resolveCommand n cr cp =
    Ok (if isClosureType t then
          mkCommandResolution _ commandDefinedFunction
            (cr_builtinFunc cr) (cr_builtinSpecial cr) (cr_specialOp cr)
        else match builtinSpecials !! n with
             | Some bi =>
                 mkCommandResolution _ commandBuiltinSpecial
                   (cr_builtinFunc cr) (Some bi) (cr_specialOp cr)
             | None =>
                 match builtinFuncs !! n with
                 | Some bi =>
                     mkCommandResolution _ commandBuiltinFunction
                       (Some bi) (cr_builtinSpecial cr) (cr_specialOp cr)
                 | None =>
                     mkCommandResolution _ commandExternal
                       (cr_builtinFunc cr) (cr_builtinSpecial cr) (cr_specialOp cr)
                 end
             end) cp'.
Proof.
  intros HR. unfold resolveCommand. rewrite (bind_eq_Ok _ _ _ _ _ HR).
  destruct (isClosureType t); [reflexivity|].
  destruct (builtinSpecials !! n); [reflexivity|].
  destruct (builtinFuncs !! n); reflexivity.
Qed.

Lemma ResolveVar_total n cp :
  exists cp', ResolveVar n cp = Ok (snd <$> resolved cp n) cp'.
Proof.
  destruct (resolved cp n) as [[i t]|] eqn:E.
  - rewrite (ResolveVar_found _ _ _ _ E). eauto.
  - rewrite (ResolveVar_not_found _ _ E). eauto.
Qed.

(** C2. [resolveCommand] always returns, and picks the kind in strict
    priority order: defined function when [fn-<name>] resolves to a
    closure-typed value, else builtin special (with its handle), else
    builtin function (with its handle), else external.  So a closure-typed
    [fn-<name>] wins over a builtin function of the same name, and a builtin
    special wins over a builtin function of the same name. *)
Theorem resolveCommand_priority `{Builtins}
    (n : string) (cr : commandResolution) (cp : Compiler) :
  exists cp' cr',
    let t := snd <$> resolved cp ("fn-" ++ n)%string in
    ResolveVar ("fn-" ++ n)%string cp = Ok t cp' /\
    resolveCommand n cr cp = Ok cr' cp' /\
    (isClosureType t = true ->
       cr_commandType cr' = commandDefinedFunction) /\
    (isClosureType t = false ->
       forall bi, builtinSpecials !! n = Some bi ->
       cr_commandType cr' = commandBuiltinSpecial /\
       cr_builtinSpecial cr' = Some bi) /\
    (isClosureType t = false -> builtinSpecials !! n = None ->
       forall bi, builtinFuncs !! n = Some bi ->
       cr_commandType cr' = commandBuiltinFunction /\
       cr_builtinFunc cr' = Some bi) /\
    (isClosureType t = false -> builtinSpecials !! n = None ->
       builtinFuncs !! n = None ->
       cr_commandType cr' = commandExternal) /\
    (is_Some (builtinFuncs !! n) -> isClosureType t = true ->
       cr_commandType cr' = commandDefinedFunction) /\
    (is_Some (builtinFuncs !! n) -> is_Some (builtinSpecials !! n) ->
       isClosureType t = false ->
       cr_commandType cr' = commandBuiltinSpecial).
Proof.
  destruct (ResolveVar_total ("fn-" ++ n)%string cp) as [cp' HR].
  eexists cp', _. cbv zeta.
  split; [exact HR|]. split; [exact (resolveCommand_eq n cr cp _ cp' HR)|].
  set (t := snd <$> resolved cp ("fn-" ++ n)%string).
  split; [intros ->; reflexivity|].
  split; [intros -> bi ->; split; reflexivity|].
  split; [intros -> -> bi ->; split; reflexivity|].
  split; [intros -> -> ->; reflexivity|].
  split; [intros _ ->; reflexivity|].
  intros _ [bi ->] ->. reflexivity.
Qed.

(** C10, as amended.  When the lookup of [fn-<name>], from the innermost
    frame outwards, first finds a non-nil binding in a frame strictly below
    the innermost one, [resolveCommand] records [fn-<name>] with that type
    in [enclosed], whatever kind the command gets: when the binding is not
    closure-typed the kind is one of builtin special, builtin function or
    external, and the capture is recorded all the same. *)
Theorem resolveCommand_captures `{Builtins}
    (n : string) (cr : commandResolution) (cp : Compiler)
    (i : nat) (t : ValueType) :
  (i < length (scopes cp) - 1)%nat ->
  scopeAt (scopes cp) i ("fn-" ++ n)%string = Some t ->
  (forall j, (i < j < length (scopes cp))%nat ->
             scopeAt (scopes cp) j ("fn-" ++ n)%string = None) ->
  exists cr',
    resolveCommand n cr cp =
      Ok cr' (set_enclosed cp
                (<[("fn-" ++ n)%string := Some t]> (enclosed cp))) /\
    (t <> ClosureType ->
       cr_commandType cr' = commandBuiltinSpecial \/
       cr_commandType cr' = commandBuiltinFunction \/
       cr_commandType cr' = commandExternal).
Proof.
  intros Hlt Hi Hj.
  assert (HR : resolved cp ("fn-" ++ n)%string = Some (i, t))
    by (apply resolveLoop_found; [lia | assumption | assumption]).
  apply ResolveVar_found in HR.
  rewrite decide_True in HR by assumption.
  eexists. split; [exact (resolveCommand_eq n cr cp _ _ HR)|].
  intros Hne.
  assert (isClosureType (Some t) = false) as -> by (destruct t; simpl; congruence).
  destruct (builtinSpecials !! n); [left; reflexivity|].
  destruct (builtinFuncs !! n); [right; left | right; right]; reflexivity.
Qed.

(** ** Unfolding a form *)

Lemma ResolveVar_frame n cp t cp' :
  ResolveVar n cp = Ok t cp' ->
  scopes cp' = scopes cp /\ name cp' = name cp /\ text cp' = text cp.
Proof.
  destruct (resolved cp n) as [[i v]|] eqn:E.
  - rewrite (ResolveVar_found _ _ _ _ E). intros [= <- <-].
    destruct (decide _); auto.
  - rewrite (ResolveVar_not_found _ _ E). intros [= <- <-]. auto.
Qed.

Lemma resolveCommand_frame `{Builtins} n cr cp :
  exists cr' cp',
    resolveCommand n cr cp = Ok cr' cp' /\
    scopes cp' = scopes cp /\ name cp' = name cp /\ text cp' = text cp /\
    (builtinSpecials !! n = None -> cr_commandType cr' <> commandBuiltinSpecial).
Proof.
  destruct (ResolveVar_total ("fn-" ++ n)%string cp) as [cp' HR].
  destruct (ResolveVar_frame _ _ _ _ HR) as (Hs & Hn & Ht).
  eexists _, cp'. split; [exact (resolveCommand_eq n cr cp _ cp' HR)|].
  repeat split; try assumption.
  intros ->. destruct (isClosureType _); [discriminate|].
  destruct (builtinFuncs !! n); discriminate.
Qed.

(** A form whose command is a literal word that is not dispatched to a
    special form: the command is resolved, the ports are compiled, then the
    arguments. *)
Lemma compileForm_word `{Builtins} pos cpos sg p cmd args redirs cp cr cp1 :
  resolveCommand cmd newCommandResolution cp = Ok cr cp1 ->
  cr_commandType cr <> commandBuiltinSpecial ->
  compileForm
    (mkFormNode pos
       (mkCompoundNode cpos sg [mkSubscriptNode (StringPrimary p cmd) None])
       args redirs) cp =
  (let* ports := compilePorts compileRedir redirs (countPorts redirs) in
   let* tlist := compileSpaced args in
   ret (combineForm (makeString cmd) tlist ports cr pos)) cp1.
Proof.
  intros HR Hne. cbn [compileForm compilePrimary].
  unfold bind, ret. rewrite HR.
  destruct (compilePorts compileRedir redirs (countPorts redirs) cp1); [|reflexivity].
  rewrite decide_False by assumption. reflexivity.
Qed.

(** [compileSpaced] is [compileCompounds] on the nodes of the list. *)
Lemma compileSpaced_eq `{Builtins} nodes :
  compileSpaced (mkSpacedNode nodes) = compileCompounds nodes.
Proof. reflexivity. Qed.

Lemma compilePorts_nil `{Builtins} f n cp :
  compilePorts f [] n cp = Ok (replicate (Z.to_nat n) None) cp.
Proof. reflexivity. Qed.

(** ** Errors *)

Lemma mustResolveVar_undefined x pos cp :
  resolved cp x = None ->
  mustResolveVar x pos cp =
    Panicked (Exception (NewContextualError (name cp) (text cp) pos
                           ("undefined variable $" ++ x)%string)).
Proof.
  intros E. unfold mustResolveVar.
  rewrite (bind_eq_Ok _ _ _ _ _ (ResolveVar_not_found _ _ E)). reflexivity.
Qed.

Lemma compileForm_undefined `{Builtins} p1 pos cmd x args cp :
  builtinSpecials !! cmd = None ->
  resolved cp x = None ->
  compileForm (form p1 cmd (varref pos x :: args) []) cp =
    Panicked (Exception (NewContextualError (name cp) (text cp) pos
                           ("undefined variable $" ++ x)%string)).
Proof.
  intros Hsp Hx.
  destruct (resolveCommand_frame cmd newCommandResolution cp)
    as (cr & cp1 & HR & Hs & Hn & Ht & Hty).
  unfold form, word.
  rewrite (compileForm_word _ _ _ _ _ _ _ _ _ _ HR (Hty Hsp)).
  assert (Hx1 : resolved cp1 x = None) by (unfold resolved; rewrite Hs; exact Hx).
  cbn. unfold makeVar, bind.
  rewrite (mustResolveVar_undefined x pos cp1 Hx1), Hn, Ht. reflexivity.
Qed.

Lemma resolved_None_iff cp x :
  resolved cp x = None <-> forall j, scopeAt (scopes cp) j x = None.
Proof.
  unfold resolved. rewrite resolveLoop_None. split; [|auto].
  intros Hall j. destruct (decide (j < length (scopes cp))%nat); [auto|].
  unfold scopeAt. rewrite lookup_ge_None_2 by lia. reflexivity.
Qed.

(** C7. A reference to a variable that no frame of the scope stack binds
    fails: [ResolveVar] returns nil, the reference raises
    "undefined variable $<name>" with the compiler's name and text and the
    position of the reference, the error leaves the form that holds the
    reference, and [Compile] returns it as its error with no op, whatever
    follows the reference in the source. *)
Theorem undefined_variable_fails `{Builtins}
    (x cmd : string) (pos p0 p1 : Z) (args : list CompoundNode)
    (forms : list FormNode) (rest : list PipelineNode) :
  builtinSpecials !! cmd = None ->
  (forall cp,
      (forall j, scopeAt (scopes cp) j x = None) ->
      let e := NewContextualError (name cp) (text cp) pos
                 ("undefined variable $" ++ x)%string in
      ResolveVar x cp = Ok None cp /\
      compilePrimary (VariablePrimary pos x) cp = Panicked (Exception e) /\
      compileForm (form p1 cmd (varref pos x :: args) []) cp
        = Panicked (Exception e)) /\
  (forall nm txt scope,
      (forall t, scope !! x <> Some (Some t)) ->
      Compile nm txt
        (mkChunkNode
           (mkPipelineNode p0 (form p1 cmd (varref pos x :: args) [] :: forms)
              :: rest)) scope
      = Returned None
          (Some (NewContextualError nm txt pos
                   ("undefined variable $" ++ x)%string))).
Proof.
  intros Hsp. split.
  - intros cp Hx e. apply resolved_None_iff in Hx.
    split; [exact (ResolveVar_not_found _ _ Hx)|].
    split; [|exact (compileForm_undefined p1 pos cmd x args cp Hsp Hx)].
    cbn [compilePrimary]. unfold makeVar, bind.
    rewrite (mustResolveVar_undefined x pos cp Hx). reflexivity.
  - intros nm txt scope Hx.
    assert (Hr : resolved (startCompile nm txt scope) x = None).
    { apply resolved_None_iff. intros [|j]; [|reflexivity].
      unfold scopeAt. simpl.
      destruct (scope !! x) as [[t|]|];
        [destruct (Hx t eq_refl) | reflexivity | reflexivity]. }
    unfold Compile, compileChunk. cbn [forM compilePipeline]. unfold bind.
    rewrite (compileForm_undefined p1 pos cmd x args _ Hsp Hr). reflexivity.
Qed.


(** ** Compound words *)

Lemma foldM_cons {A S} (f : S -> A -> M S) x r acc :
  foldM f (x :: r) acc = bind (f acc x) (fun acc' => foldM f r acc').
Proof. reflexivity. Qed.

Lemma forM_length {A B} (f : A -> M B) l cp ys cp' :
  forM f l cp = Ok ys cp' -> length ys = length l.
Proof.
  revert cp ys. induction l as [|x l IH]; intros cp ys; simpl.
  - intros [= <- <-]. reflexivity.
  - intros Hb. apply bind_Ok in Hb as (y & cp1 & _ & Hb).
    apply bind_Ok in Hb as (ys' & cp2 & Hl & Hb).
    injection Hb as <- <-. simpl. f_equal. exact (IH _ _ Hl).
Qed.

(** C8.  Once the sub-expressions of a compound word have compiled, to
    [ops], the word compiles: without a sigil to the concatenation of [ops];
    with a sigil to a channel capture around a pipeline of one form, whose
    command is the sigil character as a string, resolved by
    [resolveCommand], and whose argument list is the concatenation. *)
Theorem compileCompound_sigil `{Builtins}
    (pos sigil : Z) (nodes : list SubscriptNode)
    (cp : Compiler) (ops : list valuesOp) (cp1 : Compiler) :
  forM compileSubscript nodes cp = Ok ops cp1 ->
  length ops = length nodes /\
  (sigil = NoSigil ->
     compileCompound (mkCompoundNode pos sigil nodes) cp
       = Ok (combineCompound ops) cp1) /\
  (sigil <> NoSigil ->
     exists cr cp2,
       resolveCommand (string_of_rune sigil) newCommandResolution cp1
         = Ok cr cp2 /\
       compileCompound (mkCompoundNode pos sigil nodes) cp
         = Ok (combineChanCapture
                 (combinePipeline
                    [combineForm (makeString (string_of_rune sigil))
                       (combineCompound ops) [] cr pos] pos)) cp2).
Proof.
  intros Hops. split; [exact (forM_length _ _ _ _ _ Hops)|].
  split.
  - intros ->. cbn [compileCompound].
    rewrite (bind_eq_Ok _ _ _ _ _ Hops), Z.eqb_refl. reflexivity.
  - intros Hne.
    destruct (resolveCommand_frame (string_of_rune sigil) newCommandResolution cp1)
      as (cr & cp2 & HR & _).
    exists cr, cp2. split; [exact HR|].
    cbn [compileCompound]. rewrite (bind_eq_Ok _ _ _ _ _ Hops).
    destruct (Z.eqb_spec sigil NoSigil) as [E|_]; [destruct (Hne E)|].
    rewrite (bind_eq_Ok _ _ _ _ _ HR). reflexivity.
Qed.

(** ** Port tables *)

Lemma setPort_Ok `{Builtins} ports fd p cp ports' cp' :
  setPort ports fd p cp = Ok ports' cp' ->
  0 <= fd < Z.of_nat (length ports) /\
  ports' = <[Z.to_nat fd := Some p]> ports /\ cp' = cp.
Proof.
  unfold setPort.
  destruct (Z.leb_spec 0 fd); destruct (Z.ltb_spec fd (Z.of_nat (length ports)));
    simpl; try discriminate.
  intros [= <- <-]. auto.
Qed.

Lemma portStep_Ok `{Builtins} f ports rd cp ports' cp' :
  portStep f ports rd cp = Ok ports' cp' ->
  exists p, f rd cp = Ok p cp' /\
            0 <= Fd rd < Z.of_nat (length ports) /\
            ports' = <[Z.to_nat (Fd rd) := Some p]> ports.
Proof.
  intros Hs. apply bind_Ok in Hs as (p & cp1 & Hf & Hs).
  apply setPort_Ok in Hs as (Hr & -> & ->). eauto.
Qed.

(** The loop keeps the length of the table, needs every descriptor in
    range, and leaves alone the slots that no redirection names. *)
Lemma portLoop_Ok `{Builtins} f redirs ports cp ports' cp' :
  foldM (portStep f) redirs ports cp = Ok ports' cp' ->
  length ports' = length ports /\
  (forall rd, rd ∈ redirs -> 0 <= Fd rd < Z.of_nat (length ports)) /\
  (forall i, (forall rd, rd ∈ redirs -> Fd rd <> Z.of_nat i) ->
             ports' !! i = ports !! i).
Proof.
  revert ports cp. induction redirs as [|rd redirs IH]; intros ports cp; simpl.
  - intros [= <- <-]. split; [reflexivity|]. split; [|reflexivity].
    intros rd Hin. inversion Hin.
  - intros Hb. apply bind_Ok in Hb as (ports1 & cp1 & Hs & Hb).
    apply portStep_Ok in Hs as (p & _ & Hr & ->).
    destruct (IH _ _ Hb) as (Hlen & Hrange & Hkeep).
    rewrite length_insert in Hlen, Hrange.
    split; [exact Hlen|]. split.
    + intros rd' Hin. apply elem_of_cons in Hin as [->|Hin]; auto.
    + intros i Hi. rewrite Hkeep by (intros rd' Hin; apply Hi; right; exact Hin).
      apply list_lookup_insert_ne. intros <-.
      apply (Hi rd); [left|lia].
Qed.

(** The loop run over [pre ++ rd :: post] runs over [pre], compiles [rd] in
    the state that [pre] left, stores its op, and goes on over [post]. *)
Lemma portLoop_app `{Builtins} f pre rd post ports cp ports' cp' :
  foldM (portStep f) (pre ++ rd :: post) ports cp = Ok ports' cp' ->
  exists ports1 cp1 p cp2,
    foldM (portStep f) pre ports cp = Ok ports1 cp1 /\
    f rd cp1 = Ok p cp2 /\
    0 <= Fd rd < Z.of_nat (length ports1) /\
    foldM (portStep f) post (<[Z.to_nat (Fd rd) := Some p]> ports1) cp2
      = Ok ports' cp'.
Proof.
  revert ports cp. induction pre as [|x pre IH]; intros ports cp; simpl.
  - intros Hb. apply bind_Ok in Hb as (ports1 & cp1 & Hs & Hb).
    apply portStep_Ok in Hs as (p & Hf & Hr & ->).
    exists ports, cp, p, cp1. auto.
  - intros Hb. apply bind_Ok in Hb as (ports1 & cp1 & Hs & Hb).
    destruct (IH _ _ Hb) as (ports2 & cp2 & p & cp3 & Hpre & Hf & Hr & Hpost).
    exists ports2, cp2, p, cp3. rewrite (bind_eq_Ok _ _ _ _ _ Hs). auto.
Qed.

Lemma countPorts_loop redirs a :
  0 <= a < uintptr_modulus ->
  let n := fold_left
             (fun nports rd =>
                if nports <? uintptr_succ (Fd rd) then uintptr_succ (Fd rd)
                else nports) redirs a in
  a <= n < uintptr_modulus /\
  (forall rd, rd ∈ redirs -> uintptr_succ (Fd rd) <= n) /\
  (n = a \/ exists rd, rd ∈ redirs /\ n = uintptr_succ (Fd rd)).
Proof.
  revert a. induction redirs as [|rd redirs IH]; intros a Ha; simpl.
  - split; [lia|]. split; [|left; reflexivity]. intros rd Hin. inversion Hin.
  - assert (Hs : 0 <= uintptr_succ (Fd rd) < uintptr_modulus)
      by (apply Z.mod_pos_bound; reflexivity).
    destruct (Z.ltb_spec a (uintptr_succ (Fd rd))) as [Hlt|Hge].
    + destruct (IH _ Hs) as (Hb & Hall & Hex). split; [lia|]. split.
      * intros rd' Hin. apply elem_of_cons in Hin as [->|Hin]; [lia | auto].
      * right. destruct Hex as [->|(rd' & Hin & ->)].
        -- exists rd. split; [left | reflexivity].
        -- exists rd'. split; [right; exact Hin | reflexivity].
    + destruct (IH _ Ha) as (Hb & Hall & Hex). split; [lia|]. split.
      * intros rd' Hin. apply elem_of_cons in Hin as [->|Hin]; [lia | auto].
      * destruct Hex as [->|(rd' & Hin & ->)]; [left; reflexivity|].
        right. exists rd'. split; [right; exact Hin | reflexivity].
Qed.

(** A form that compiles got its port table from the port loop. *)
Lemma compileForm_ports `{Builtins} fn cp op cp' :
  compileForm fn cp = Ok op cp' ->
  exists cmdOp tlist ports cr pos cp0 cp1,
    op = combineForm cmdOp tlist ports cr pos /\
    compilePorts compileRedir (FormRedirs fn) (countPorts (FormRedirs fn)) cp0
      = Ok ports cp1.
Proof.
  destruct fn as [pos [cpos sg cnodes] args redirs].
  destruct cnodes as [|[command [r|]] [|sn cnodes]]; try discriminate.
  cbn [compileForm FormRedirs]. intros Hb.
  apply bind_Ok in Hb as (cmdOp & cpa & _ & Hb).
  apply bind_Ok in Hb as (cr & cp0 & _ & Hb).
  apply bind_Ok in Hb as (ports & cp1 & Hports & Hb).
  destruct (decide (cr_commandType cr = commandBuiltinSpecial)).
  - destruct (cr_builtinSpecial cr) as [bs|]; [|discriminate].
    apply bind_Ok in Hb as (sop & cp2 & _ & Hb). injection Hb as <- <-.
    eauto 10.
  - apply bind_Ok in Hb as (tlist & cp2 & _ & Hb). injection Hb as <- <-.
    eauto 10.
Qed.

Lemma portLoop_named `{Builtins} f redirs ports cp ports' cp' :
  foldM (portStep f) redirs ports cp = Ok ports' cp' ->
  (forall i p, ports !! i = Some (Some p) ->
               exists p', ports' !! i = Some (Some p')) /\
  (forall rd, rd ∈ redirs ->
              exists p, ports' !! Z.to_nat (Fd rd) = Some (Some p)).
Proof.
  revert ports cp. induction redirs as [|rd redirs IH]; intros ports cp; simpl.
  - intros [= <- <-]. split; [eauto|]. intros rd Hin. inversion Hin.
  - intros Hb. apply bind_Ok in Hb as (ports1 & cp1 & Hs & Hb).
    apply portStep_Ok in Hs as (p & _ & Hr & ->).
    destruct (IH _ _ Hb) as (Hkeep & Hnamed).
    assert (Hset : <[Z.to_nat (Fd rd) := Some p]> ports !! Z.to_nat (Fd rd)
                   = Some (Some p))
      by (apply list_lookup_insert_eq; lia).
    split.
    + intros i q Hi. destruct (decide (i = Z.to_nat (Fd rd))) as [->|Hne].
      * exact (Hkeep _ _ Hset).
      * apply (Hkeep i q). rewrite list_lookup_insert_ne by congruence. exact Hi.
    + intros rd' Hin. apply elem_of_cons in Hin as [->|Hin]; [|auto].
      exact (Hkeep _ _ Hset).
Qed.


(** C9.  In a form that compiles, every redirection is compiled, each in
    the state left by the ones before it and handing its state on to the
    ones after it; and the slot of a descriptor holds the op of the last
    redirection, in source order, that names it. *)
Theorem last_redirection_wins `{Builtins}
    (fn : FormNode) (cp : Compiler) (op : stateUpdatesOp) (cp' : Compiler)
    (pre : list Redir) (rd : Redir) (post : list Redir) :
  compileForm fn cp = Ok op cp' ->
  FormRedirs fn = (pre ++ rd :: post)%list ->
  exists cp0 ports1 cp1 p cp2 cp3,
    compilePorts compileRedir pre (countPorts (FormRedirs fn)) cp0
      = Ok ports1 cp1 /\
    compileRedir rd cp1 = Ok p cp2 /\
    foldM (portStep compileRedir) post
      (<[Z.to_nat (Fd rd) := Some p]> ports1) cp2 = Ok (formPorts op) cp3 /\
    ((forall rd', rd' ∈ post -> Fd rd' <> Fd rd) ->
     formPorts op !! Z.to_nat (Fd rd) = Some (Some p)).
Proof.
  intros HC Hsplit.
  destruct (compileForm_ports _ _ _ _ HC)
    as (cmdOp & tlist & ports & cr & pos & cp0 & cp3 & -> & HP).
  cbn [formPorts]. unfold compilePorts in HP. rewrite Hsplit in HP at 1.
  destruct (portLoop_app _ _ _ _ _ _ _ _ HP)
    as (ports1 & cp1 & p & cp2 & Hpre & Hrd & Hr & Hpost).
  exists cp0, ports1, cp1, p, cp2, cp3.
  split; [exact Hpre|]. split; [exact Hrd|]. split; [exact Hpost|].
  intros Hlast.
  destruct (portLoop_Ok _ _ _ _ _ _ Hpost) as (_ & _ & Hkeep).
  rewrite Hkeep.
  - apply list_lookup_insert_eq. lia.
  - intros rd' Hin. rewrite Z2Nat.id by lia. exact (Hlast rd' Hin).
Qed.

(** ** Captures *)

Lemma ResolveVar_mk nm txt ss e n :
  ResolveVar n (mkCompiler nm txt ss e)
  = Ok (typeOf ss n) (mkCompiler nm txt ss (captureOf ss e n)).
Proof.
  unfold typeOf, captureOf.
  destruct (resolveLoop ss n (length ss)) as [[i t]|] eqn:E.
  - rewrite (ResolveVar_found n (mkCompiler nm txt ss e) i t E). simpl.
    destruct (decide _); reflexivity.
  - exact (ResolveVar_not_found n (mkCompiler nm txt ss e) E).
Qed.

Lemma resolveCommand_mk `{Builtins} nm txt ss e n cr :
  resolveCommand n cr (mkCompiler nm txt ss e)
  = Ok (classify (typeOf ss ("fn-" ++ n)%string) n cr)
       (mkCompiler nm txt ss (captureOf ss e ("fn-" ++ n)%string)).
Proof. exact (resolveCommand_eq n cr _ _ _ (ResolveVar_mk nm txt ss e _)). Qed.

Lemma classify_not_special `{Builtins} t n cr :
  builtinSpecials !! n = None ->
  cr_commandType (classify t n cr) <> commandBuiltinSpecial.
Proof.
  intros Hn. unfold classify. rewrite Hn.
  destruct (isClosureType t); [discriminate|].
  destruct (builtinFuncs !! n); discriminate.
Qed.

Lemma classify_special `{Builtins} t n cr bs :
  isClosureType t = false -> builtinSpecials !! n = Some bs ->
  classify t n cr
  = mkCommandResolution _ commandBuiltinSpecial
      (cr_builtinFunc cr) (Some bs) (cr_specialOp cr).
Proof. intros Ht Hn. unfold classify. rewrite Ht, Hn. reflexivity. Qed.

Lemma scopeAt_app_l ss ss' i n :
  (i < length ss)%nat -> scopeAt (ss ++ ss') i n = scopeAt ss i n.
Proof. intros Hi. unfold scopeAt. rewrite lookup_app_l by assumption. reflexivity. Qed.

Lemma resolveLoop_app ss ss' n k :
  (k <= length ss)%nat -> resolveLoop (ss ++ ss') n k = resolveLoop ss n k.
Proof.
  induction k as [|k IH]; intros Hk; simpl; [reflexivity|].
  rewrite scopeAt_app_l by lia. rewrite IH by lia. reflexivity.
Qed.

(** Resolution on a stack whose innermost frame is [fr]. *)
Lemma resolveLoop_snoc ss fr n :
  resolveLoop (ss ++ [fr]) n (length (ss ++ [fr]))
  = match fr !! n with
    | Some (Some t) => Some (length ss, t)
    | _ => resolveLoop ss n (length ss)
    end.
Proof.
  rewrite length_app, Nat.add_1_r. simpl.
  unfold scopeAt at 1. rewrite list_lookup_middle by reflexivity.
  rewrite resolveLoop_app by lia.
  destruct (fr !! n) as [[t|]|]; reflexivity.
Qed.

Lemma captureOf_lookup_ne ss e n k :
  k <> n -> captureOf ss e n !! k = e !! k.
Proof.
  intros Hne. unfold captureOf.
  destruct (resolveLoop ss n (length ss)) as [[i t]|]; [|reflexivity].
  destruct (decide _); [|reflexivity].
  apply lookup_insert_ne. congruence.
Qed.

(** A name found in the innermost frame is not recorded. *)
Lemma captureOf_local ss fr e n t :
  fr !! n = Some (Some t) -> captureOf (ss ++ [fr]) e n = e.
Proof.
  intros Hfr. unfold captureOf. rewrite resolveLoop_snoc, Hfr.
  rewrite length_app, Nat.add_1_r. rewrite decide_False by lia. reflexivity.
Qed.

(** A name found only below the innermost frame is recorded. *)
Lemma captureOf_below ss fr e n i t :
  (forall v, fr !! n <> Some (Some v)) ->
  resolveLoop ss n (length ss) = Some (i, t) ->
  captureOf (ss ++ [fr]) e n = <[n := Some t]> e.
Proof.
  intros Hfr Hr. unfold captureOf. rewrite resolveLoop_snoc.
  assert (Hlt : (i < length ss)%nat) by (apply resolveLoop_Some in Hr; tauto).
  destruct (fr !! n) as [[v|]|] eqn:E; [destruct (Hfr v eq_refl)| |];
    rewrite Hr, length_app, Nat.add_1_r; rewrite decide_True by lia; reflexivity.
Qed.

Lemma typeOf_snoc_local ss fr n t :
  fr !! n = Some (Some t) -> typeOf (ss ++ [fr]) n = Some t.
Proof. intros Hfr. unfold typeOf. rewrite resolveLoop_snoc, Hfr. reflexivity. Qed.

Lemma typeOf_snoc_below ss fr n :
  (forall v, fr !! n <> Some (Some v)) -> typeOf (ss ++ [fr]) n = typeOf ss n.
Proof.
  intros Hfr. unfold typeOf. rewrite resolveLoop_snoc.
  destruct (fr !! n) as [[v|]|]; [destruct (Hfr v eq_refl)| |]; reflexivity.
Qed.

Lemma pushScope_mk nm txt ss e :
  pushScope (mkCompiler nm txt ss e) = Ok tt (mkCompiler nm txt (ss ++ [∅]) e).
Proof. reflexivity. Qed.

Lemma popScope_mk nm txt ss fr e :
  popScope (mkCompiler nm txt (ss ++ [fr]) e) = Ok tt (mkCompiler nm txt ss e).
Proof.
  unfold popScope, set_scopes. simpl. rewrite removelast_last.
  destruct ss; reflexivity.
Qed.

Lemma pushVar_mk nm txt ss fr e n t :
  pushVar n t (mkCompiler nm txt (ss ++ [fr]) e)
  = Ok tt (mkCompiler nm txt (ss ++ [<[n := t]> fr]) e).
Proof.
  unfold pushVar, set_scopes. simpl.
  replace (length (ss ++ [fr]) - 1)%nat with (length ss + 0)%nat
    by (rewrite length_app; simpl; lia).
  rewrite alter_app_r. destruct ss; reflexivity.
Qed.

Lemma hasVarOnThisScope_mk nm txt ss fr e n :
  hasVarOnThisScope n (mkCompiler nm txt (ss ++ [fr]) e)
  = Ok (bool_decide (is_Some (fr !! n))) (mkCompiler nm txt (ss ++ [fr]) e).
Proof.
  unfold hasVarOnThisScope. simpl.
  replace (length (ss ++ [fr]) - 1)%nat with (length ss)
    by (rewrite length_app; simpl; lia).
  rewrite list_lookup_middle by reflexivity. reflexivity.
Qed.

(** A closure whose body compiles, from the stack with a fresh frame to a
    stack of the same depth: its capture set is the whole of [enclosed] as
    the body leaves it, and the enclosing unit goes on with an empty one. *)
Lemma compileClosure_mk `{Builtins} nodes nm txt ss e ops ss' fr e' :
  forM compilePipeline nodes (mkCompiler nm txt (ss ++ [∅]) e)
    = Ok ops (mkCompiler nm txt (ss' ++ [fr]) e') ->
  compileClosure (mkClosureNode (mkChunkNode nodes)) (mkCompiler nm txt ss e)
  = Ok (combineClosure ops e', e') (mkCompiler nm txt ss' ∅).
Proof.
  intros Hbody. cbn [compileClosure].
  rewrite (bind_eq_Ok _ _ _ _ _ (pushScope_mk nm txt ss e)).
  rewrite (bind_eq_Ok _ _ _ _ _ Hbody).
  unfold bind at 1. unfold getEnclosed at 1. cbn [enclosed].
  unfold bind at 1. unfold setEnclosed at 1, set_enclosed. cbn [name text scopes].
  rewrite (bind_eq_Ok _ _ _ _ _ (popScope_mk nm txt ss' fr ∅)). reflexivity.
Qed.

Section Scenario.
Context `{Builtins}.
Variables (x cmd b : string) (tx : ValueType).
Variables (bs : builtinSpecial strOp) (sop : strOp) (bargs : SpacedNode).
Variables (p pos pb pc pi : Z).

Hypothesis Hcmd : builtinSpecials !! cmd = None.
Hypothesis Hb : builtinSpecials !! b = Some bs.
(** On [bindForm], the special form binds [x] in the innermost frame. *)
Hypothesis Hbind :
  forall cp,
    compile bs (bindForm b bargs pb) cp = (pushVar x (Some tx) ;; ret sop) cp.

Lemma compileForm_ref nm txt ss e t :
  typeOf ss x = Some t ->
  compileForm (refForm x cmd p pos) (mkCompiler nm txt ss e)
  = Ok (combineForm (makeString cmd)
          (combineSpaced [combineCompound [makeVarOp x (Some t) pos]]) []
          (classify (typeOf ss ("fn-" ++ cmd)%string) cmd newCommandResolution) p)
       (mkCompiler nm txt ss
          (captureOf ss (captureOf ss e ("fn-" ++ cmd)%string) x)).
Proof.
  intros Ht. unfold refForm, form, word, varref.
  rewrite (compileForm_word _ _ _ _ _ _ _ _ _ _
             (resolveCommand_mk nm txt ss e cmd newCommandResolution)
             (classify_not_special _ _ _ Hcmd)).
  rewrite (bind_eq_Ok _ _ _ _ _ (compilePorts_nil _ _ _)).
  cbn [compileSpaced forM compileCompound compileSubscript compilePrimary].
  unfold makeVar, mustResolveVar, bind.
  rewrite ResolveVar_mk, Ht, Z.eqb_refl. reflexivity.
Qed.

Lemma compileForm_bind nm txt ss fr e :
  isClosureType (typeOf (ss ++ [fr]) ("fn-" ++ b)%string) = false ->
  compileForm (bindForm b bargs pb) (mkCompiler nm txt (ss ++ [fr]) e)
  = Ok (combineForm (makeString b) valuesOpZero []
          (mkCommandResolution _ commandBuiltinSpecial None (Some bs) (Some sop))
          pb)
       (mkCompiler nm txt (ss ++ [<[x := Some tx]> fr])
          (captureOf (ss ++ [fr]) e ("fn-" ++ b)%string)).
Proof.
  intros Hfn. pose proof Hbind as Hbind'. unfold bindForm, word in *.
  cbn [compileForm compilePrimary]. unfold bind at 1. unfold ret at 1.
  rewrite (bind_eq_Ok _ _ _ _ _
             (resolveCommand_mk nm txt (ss ++ [fr]) e b newCommandResolution)).
  rewrite (classify_special _ _ _ bs Hfn Hb).
  rewrite (bind_eq_Ok _ _ _ _ _ (compilePorts_nil _ _ _)).
  cbn [cr_commandType cr_builtinSpecial cr_builtinFunc newCommandResolution].
  rewrite decide_True by reflexivity.
  unfold bind at 1. rewrite Hbind'.
  rewrite (bind_eq_Ok _ _ _ _ _ (pushVar_mk nm txt ss fr _ x (Some tx))).
  reflexivity.
Qed.

(** The loop that hands the captures [enc] of a closure on to the unit
    whose innermost frame is [fr]: a name goes into [enclosed] unless
    [fr] has it as a key. *)
Lemma forwardLoop (l : list (string * Type_)) nm txt ss fr e :
  NoDup l.*1 ->
  exists e',
    foldM forwardStep l tt (mkCompiler nm txt (ss ++ [fr]) e)
    = Ok tt (mkCompiler nm txt (ss ++ [fr]) e') /\
    forall k,
      (forall v, (k, v) ∈ l ->
         e' !! k = if decide (is_Some (fr !! k)) then e !! k else Some v) /\
      (k ∉ l.*1 -> e' !! k = e !! k).
Proof.
  revert e. induction l as [|[k0 v0] l IH]; intros e Hnd.
  - exists e. split; [reflexivity|]. intros k. split; [|reflexivity].
    intros v Hin. inversion Hin.
  - apply NoDup_cons in Hnd as [Hk0 Hnd]. rewrite foldM_cons.
    set (e1 := if bool_decide (is_Some (fr !! k0)) then e else <[k0 := v0]> e).
    destruct (IH e1 Hnd) as (e' & Hrun & Hspec).
    exists e'. split.
    + rewrite <- Hrun. apply bind_eq_Ok. unfold forwardStep, bind.
      cbn [fst snd].
      rewrite hasVarOnThisScope_mk. subst e1.
      destruct (bool_decide (is_Some (fr !! k0))); reflexivity.
    + intros k. destruct (Hspec k) as [Hin Hout]. split.
      * intros v Hkv. apply elem_of_cons in Hkv as [[= -> ->]|Hkv].
        -- rewrite (Hout Hk0). subst e1.
           destruct (decide (is_Some (fr !! k0))) as [Hs|Hs].
           ++ rewrite bool_decide_eq_true_2 by assumption. reflexivity.
           ++ rewrite bool_decide_eq_false_2 by assumption.
              apply lookup_insert_eq.
        -- rewrite (Hin v Hkv).
           assert (Hne : k0 <> k).
           { intros ->. apply Hk0. apply list_elem_of_fmap.
             exists (k, v). split; [reflexivity | assumption]. }
           destruct (decide (is_Some (fr !! k))); [|reflexivity].
           subst e1. destruct (bool_decide _); [reflexivity|].
           apply lookup_insert_ne. assumption.
      * intros Hnin. apply not_elem_of_cons in Hnin as [Hne Hnin].
        rewrite (Hout Hnin). subst e1.
        destruct (bool_decide _); [reflexivity|].
        apply lookup_insert_ne. intros Heq. apply Hne. simpl. congruence.
Qed.

Lemma forwardEnclosed_mk (enc : gmap string Type_) nm txt ss fr e :
  exists e',
    forwardEnclosed enc (mkCompiler nm txt (ss ++ [fr]) e)
    = Ok tt (mkCompiler nm txt (ss ++ [fr]) e') /\
    forall k,
      e' !! k = match enc !! k with
                | Some v => if decide (is_Some (fr !! k)) then e !! k else Some v
                | None => e !! k
                end.
Proof.
  destruct (forwardLoop (map_to_list enc) nm txt ss fr e
              (NoDup_fst_map_to_list enc)) as (e' & Hrun & Hspec).
  exists e'. split; [exact Hrun|].
  intros k. destruct (Hspec k) as [Hin Hout].
  destruct (enc !! k) as [v|] eqn:E.
  - apply Hin. apply elem_of_map_to_list. exact E.
  - apply Hout. intros Hk. apply list_elem_of_fmap in Hk as ([k' v] & -> & Hkv).
    apply elem_of_map_to_list in Hkv. simpl in E. congruence.
Qed.

(** A form whose command is a closure literal and that has no arguments
    and no redirections. *)
Lemma compileForm_closure q nodes nm txt ss fr e cop enc :
  compileClosure (mkClosureNode (mkChunkNode nodes))
    (mkCompiler nm txt (ss ++ [fr]) e)
  = Ok (cop, enc) (mkCompiler nm txt (ss ++ [fr]) ∅) ->
  exists e',
    compileForm (closureForm q nodes) (mkCompiler nm txt (ss ++ [fr]) e)
    = Ok (combineForm cop (combineSpaced []) []
            (mkCommandResolution _ commandClosure None None None) q)
         (mkCompiler nm txt (ss ++ [fr]) e') /\
    forall k,
      e' !! k = match enc !! k with
                | Some v => if decide (is_Some (fr !! k)) then None else Some v
                | None => None
                end.
Proof.
  intros Hclo.
  destruct (forwardEnclosed_mk enc nm txt ss fr ∅) as (e' & Hfw & Hspec).
  exists e'. split.
  - assert (Hprim : compilePrimary (closure q nodes)
                      (mkCompiler nm txt (ss ++ [fr]) e)
                    = Ok cop (mkCompiler nm txt (ss ++ [fr]) e')).
    { unfold closure. cbn [compilePrimary].
      rewrite (bind_eq_Ok _ _ _ _ _ Hclo). cbn [fst snd].
      rewrite (bind_eq_Ok _ _ _ _ _ Hfw). reflexivity. }
    unfold closureForm. cbn [compileForm].
    rewrite (bind_eq_Ok _ _ _ _ _ Hprim). reflexivity.
  - intros k. rewrite Hspec, lookup_empty.
    destruct (enc !! k); reflexivity.
Qed.

Lemma forM_one {A C} (f : A -> M C) a cp y cp' :
  f a cp = Ok y cp' -> forM f [a] cp = Ok [y] cp'.
Proof. intros Hf. cbn [forM]. rewrite (bind_eq_Ok _ _ _ _ _ Hf). reflexivity. Qed.

Lemma compilePipeline_one q fn cp op cp' :
  compileForm fn cp = Ok op cp' ->
  compilePipeline (mkPipelineNode q [fn]) cp = Ok (combinePipeline [op] q) cp'.
Proof.
  intros Hf. cbn [compilePipeline].
  rewrite (bind_eq_Ok _ _ _ _ _ (forM_one _ _ _ _ _ Hf)). reflexivity.
Qed.

Lemma forM_two {A C} (f : A -> M C) a1 a2 cp y1 cp1 y2 cp2 :
  f a1 cp = Ok y1 cp1 -> f a2 cp1 = Ok y2 cp2 ->
  forM f [a1; a2] cp = Ok [y1; y2] cp2.
Proof.
  intros H1 H2. change (forM f [a1; a2]) with
    (let* y := f a1 in let* ys := forM f [a2] in ret (y :: ys)).
  rewrite (bind_eq_Ok _ _ _ _ _ H1).
  rewrite (bind_eq_Ok _ _ _ _ _ (forM_one _ _ _ _ _ H2)). reflexivity.
Qed.

Lemma resolveLoop_fresh ss n :
  resolveLoop (ss ++ [∅]) n (length (ss ++ [∅])) = resolveLoop ss n (length ss).
Proof. rewrite resolveLoop_snoc, lookup_empty. reflexivity. Qed.

Lemma typeOf_fresh ss n : typeOf (ss ++ [∅]) n = typeOf ss n.
Proof. unfold typeOf. rewrite resolveLoop_fresh. reflexivity. Qed.

Lemma fresh_unbound n (v : ValueType) :
  (∅ : gmap string Type_) !! n <> Some (Some v).
Proof. rewrite lookup_empty. discriminate. Qed.

(** Reference and binding in either order, in a closure that holds
    nothing else.  When the closure refers to [x], found in an enclosing
    frame, and binds [x] in its own frame afterwards, [x] is in the capture
    set; when it binds [x] first and refers to it afterwards, the capture
    set holds for [x] what [enclosed] held before the closure.  The reason
    is what [ResolveVar] does: it records the name exactly when the index of
    the match is below the innermost index. *)
Lemma capture_order nm txt ss e :
  isClosureType (typeOf ss ("fn-" ++ b)%string) = false ->
  (forall i t,
      resolveLoop ss x (length ss) = Some (i, t) ->
      exists ops enc,
        compileClosure (refThenBind x cmd b bargs p pos pb pc pi)
          (mkCompiler nm txt ss e)
        = Ok (combineClosure ops enc, enc) (mkCompiler nm txt ss ∅) /\
        enc !! x = Some (Some t)) /\
  (x <> ("fn-" ++ b)%string ->
      exists ops enc,
        compileClosure (bindThenRef x cmd b bargs p pos pb pc pi)
          (mkCompiler nm txt ss e)
        = Ok (combineClosure ops enc, enc) (mkCompiler nm txt ss ∅) /\
        enc !! x = e !! x) /\
  (forall cp n i t,
      resolved cp n = Some (i, t) ->
      ResolveVar n cp
      = Ok (Some t)
          (if decide (i < length (scopes cp) - 1)%nat
           then set_enclosed cp (<[n := Some t]> (enclosed cp)) else cp)).
Proof.
  intros Hfnb. split; [|split].
  - intros i t Hx.
    assert (Ht : typeOf (ss ++ [∅]) x = Some t)
      by (rewrite typeOf_fresh; unfold typeOf; rewrite Hx; reflexivity).
    pose proof (compileForm_ref nm txt (ss ++ [∅]) e t Ht) as Href.
    assert (Hfnb' : isClosureType (typeOf (ss ++ [∅]) ("fn-" ++ b)%string) = false)
      by (rewrite typeOf_fresh; exact Hfnb).
    pose proof (compileForm_bind nm txt ss ∅
                  (captureOf (ss ++ [∅])
                     (captureOf (ss ++ [∅]) e ("fn-" ++ cmd)%string) x) Hfnb')
      as Hbnd.
    eexists _, _. split.
    + unfold refThenBind. eapply compileClosure_mk.
      eapply forM_two; apply compilePipeline_one; [exact Href | exact Hbnd].
    + rewrite (captureOf_below ss ∅ _ x i t (fresh_unbound x) Hx).
      destruct (decide (x = ("fn-" ++ b)%string)) as [Heq|Hne].
      * rewrite <- Heq.
        rewrite (captureOf_below ss ∅ _ x i t (fresh_unbound x) Hx).
        apply lookup_insert_eq.
      * rewrite captureOf_lookup_ne by assumption. apply lookup_insert_eq.
  - intros Hne.
    assert (Hfnb' : isClosureType (typeOf (ss ++ [∅]) ("fn-" ++ b)%string) = false)
      by (rewrite typeOf_fresh; exact Hfnb).
    pose proof (compileForm_bind nm txt ss ∅ e Hfnb') as Hbnd.
    set (fr := <[x := Some tx]> (∅ : gmap string Type_)) in *.
    assert (Hfr : fr !! x = Some (Some tx)) by apply lookup_insert_eq.
    pose proof (compileForm_ref nm txt (ss ++ [fr])
                  (captureOf (ss ++ [∅]) e ("fn-" ++ b)%string) tx
                  (typeOf_snoc_local ss fr x tx Hfr)) as Href.
    eexists _, _. split.
    + unfold bindThenRef. eapply compileClosure_mk.
      eapply forM_two; apply compilePipeline_one; [exact Hbnd | exact Href].
    + rewrite (captureOf_local ss fr _ x tx Hfr).
      destruct (decide (x = ("fn-" ++ cmd)%string)) as [Heq|Hne'].
      * rewrite <- Heq. rewrite (captureOf_local ss fr _ x tx Hfr).
        apply captureOf_lookup_ne. exact Hne.
      * rewrite captureOf_lookup_ne by assumption.
        apply captureOf_lookup_ne. exact Hne.
  - exact (fun cp n i t => ResolveVar_found n cp i t).
Qed.


End Scenario.

(** ** The properties on the sample programs *)

Section Samples.
#[local] Existing Instance sampleBuiltins.

Lemma resolveCommand_priority_witness :
  (exists cp' cr',
      resolveCommand (H := sampleBuiltins) "echo" newCommandResolution
        sampleShadowed = Ok cr' cp' /\
      cr_commandType cr' = commandDefinedFunction) /\
  (exists cp' cr',
      resolveCommand (H := sampleBuiltins) "var" newCommandResolution
        sampleShadowed = Ok cr' cp' /\
      cr_commandType cr' = commandBuiltinSpecial /\
      cr_builtinSpecial cr' = Some sampleVar).
Proof.
  split.
  - destruct (resolveCommand_priority (H := sampleBuiltins) "echo"
                newCommandResolution sampleShadowed)
      as (cp' & cr' & _ & HC & Hdef & _).
    exists cp', cr'. split; [exact HC|]. apply Hdef. vm_compute. reflexivity.
  - destruct (resolveCommand_priority (H := sampleBuiltins) "var"
                newCommandResolution sampleShadowed)
      as (cp' & cr' & _ & HC & _ & Hsp & _).
    exists cp', cr'. split; [exact HC|]. apply Hsp; vm_compute; reflexivity.
Defined.

Lemma resolveCommand_captures_witness :
  exists cr',
    resolveCommand (H := sampleBuiltins) "a" newCommandResolution
      (mkCompiler "n" "t" [ {[ "fn-a" := Some StringType ]}; ∅ ] ∅)
    = Ok cr' (mkCompiler "n" "t" [ {[ "fn-a" := Some StringType ]}; ∅ ]
                {[ "fn-a" := Some StringType ]}) /\
    cr_commandType cr' = commandExternal.
Proof.
  destruct (resolveCommand_captures (H := sampleBuiltins) "a"
              newCommandResolution
              (mkCompiler "n" "t" [ {[ "fn-a" := Some StringType ]}; ∅ ] ∅)
              0%nat StringType) as (cr' & HC & Hkind).
  - simpl. lia.
  - vm_compute. reflexivity.
  - simpl. intros j Hj. assert (j = 1%nat) as -> by lia. reflexivity.
  - exists cr'. split; [exact HC|].
    vm_compute in HC. injection HC as <-. reflexivity.
Defined.

(** C10 as stated fails: a binding of [fn-a] below the innermost frame is
    not recorded when the innermost frame binds [fn-a] too, since the lookup
    stops at the innermost frame. *)
Lemma resolveCommand_captures_counterexample :
  ~ (forall (B : Builtins) (n : string) (cr : commandResolution) (cp : Compiler)
            (i : nat) (t : ValueType) cr' cp',
        (i < length (scopes cp) - 1)%nat ->
        scopeAt (scopes cp) i ("fn-" ++ n)%string = Some t ->
        resolveCommand n cr cp = Ok cr' cp' ->
        is_Some (enclosed cp' !! ("fn-" ++ n)%string)).
Proof.
  intros Hall.
  destruct (resolveCommand (H := sampleBuiltins) "a" newCommandResolution
              sampleShadowed) as [cr' cp'|v] eqn:HC;
    [|vm_compute in HC; discriminate].
  pose proof (Hall sampleBuiltins "a" newCommandResolution sampleShadowed
                1%nat StringType cr' cp') as Hrec.
  vm_compute in HC. injection HC as <- <-.
  destruct Hrec as [v Hv].
  - simpl. lia.
  - vm_compute. reflexivity.
  - reflexivity.
  - vm_compute in Hv. discriminate.
Qed.

Lemma undefined_variable_fails_witness :
  Compile (B := sampleBuiltins) "script" "echo $y; echo ok"
    (mkChunkNode
       [ mkPipelineNode 0 [ form 0 "echo" [varref 5 "y"] [] ];
         mkPipelineNode 9 [ form 9 "echo" [word 14 "ok"] [] ] ])
    {[ "x" := Some StringType ]}
  = Returned None
      (Some (NewContextualError "script" "echo $y; echo ok" 5
               "undefined variable $y")).
Proof.
  refine (proj2 (undefined_variable_fails (H := sampleBuiltins)
                   "y" "echo" 5 0 0 [] [] _ _) _ _ _ _).
  - vm_compute. reflexivity.
  - intros t. vm_compute. discriminate.
Defined.


Lemma compileCompound_sigil_witness :
  compileCompound (B := sampleBuiltins)
    (mkCompoundNode 0 64 [mkSubscriptNode (StringPrimary 1 "foo") None])
    (startCompile "script" "@foo" ∅)
  = Ok (combineChanCapture
          (combinePipeline
             [combineForm (makeString "@")
                (combineCompound [makeString "foo"]) []
                (mkCommandResolution sampleBuiltins commandExternal None None None) 0]
             0))
       (startCompile "script" "@foo" ∅).
Proof.
  destruct (compileCompound_sigil (H := sampleBuiltins) 0 64
              [mkSubscriptNode (StringPrimary 1 "foo") None]
              (startCompile "script" "@foo" ∅) [makeString "foo"]
              (startCompile "script" "@foo" ∅) eq_refl)
    as (_ & _ & Hsig).
  destruct Hsig as (cr & cp2 & HR & HC); [discriminate|].
  vm_compute in HR. injection HR as <- <-. exact HC.
Defined.


Lemma last_redirection_wins_witness :
  exists op cp',
    compileForm (B := sampleBuiltins)
      (form 0 "echo" [] [FilenameRedir 5 1 0 (word 6 "a"); FdRedir 8 1 2;
                         CloseRedir 12 1])
      (startCompile "script" "echo >a >&2 >&-" ∅) = Ok op cp' /\
    formPorts op !! 1%nat = Some (Some closePortOp).
Proof.
  destruct (compileForm (B := sampleBuiltins)
              (form 0 "echo" [] [FilenameRedir 5 1 0 (word 6 "a"); FdRedir 8 1 2;
                                 CloseRedir 12 1])
              (startCompile "script" "echo >a >&2 >&-" ∅)) as [op cp'|v] eqn:HC;
    [|vm_compute in HC; discriminate].
  exists op, cp'. split; [reflexivity|].
  destruct (last_redirection_wins (H := sampleBuiltins) _ _ _ _
              [FilenameRedir 5 1 0 (word 6 "a"); FdRedir 8 1 2]
              (CloseRedir 12 1) [] HC eq_refl)
    as (cp0 & ports1 & cp1 & p & cp2 & cp3 & _ & Hrd & _ & Hlast).
  cbn [compileRedir] in Hrd. injection Hrd as <- _.
  apply Hlast. intros rd' Hin. inversion Hin.
Defined.

(** The sample special form [var], on [var x], binds [x] and nothing
    else. *)
Lemma sampleVar_binds (q : Z) (cp : Compiler) :
  compile sampleVar (bindForm "var" (mkSpacedNode [word q "x"]) q) cp
  = (pushVar "x" (Some StringType) ;; ret "var") cp.
Proof.
  unfold bindForm, word. cbn [compile sampleVar].
  rewrite foldM_cons. cbn [bindArg foldM]. unfold bind, ret.
  destruct (pushVar "x" (Some StringType) cp); reflexivity.
Qed.


(** C1.  The program [{ echo $x; { echo hi } }] with [x] in the root
    scope: the body of the inner closure resolves no name at all, yet the
    inner closure gets the capture set of the outer one, [x], which the
    outer closure had captured before the inner one was compiled. *)
Theorem closure_capture_leak :
  Compile "script" leakSource leakChunk {[ "x" := Some StringType ]}
  = Returned
      (Some (combineChunk
               [closureCall 0
                  [echoX 2;
                   closureCall 11 [echoHi 13] {[ "x" := Some StringType ]}]
                  {[ "x" := Some StringType ]}]))
      None.
Proof. vm_compute. reflexivity. Qed.

(** C4.  The program [{ echo $x; var x; { echo hi } }] with [x] in the
    root scope: the outer closure refers to the [x] of the root scope and
    binds [x] in its own frame afterwards, yet its capture set is empty;
    the inner closure, which resolves no name, took [x] over. *)
Theorem capture_lost_after_closure :
  Compile "script" lossSource lossChunk {[ "x" := Some StringType ]}
  = Returned
      (Some (combineChunk
               [closureCall 0
                  [echoX 2; varX 11;
                   closureCall 18 [echoHi 20] {[ "x" := Some StringType ]}]
                  ∅]))
      None.
Proof. vm_compute. reflexivity. Qed.

End Samples.

(** * Further properties of the scope stack *)

Lemma popVar_mk nm txt ss fr e n :
  popVar n (mkCompiler nm txt (ss ++ [fr]) e)
  = Ok tt (mkCompiler nm txt (ss ++ [delete n fr]) e).
Proof.
  unfold popVar, set_scopes. simpl.
  replace (length (ss ++ [fr]) - 1)%nat with (length ss + 0)%nat
    by (rewrite length_app; simpl; lia).
  rewrite alter_app_r. destruct ss; reflexivity.
Qed.

(** A compiler state either has no frame or has an innermost one. *)
Lemma Compiler_cases cp :
  (exists nm txt e, cp = mkCompiler nm txt [] e) \/
  (exists nm txt ss fr e, cp = mkCompiler nm txt (ss ++ [fr]) e).
Proof.
  destruct cp as [nm txt ss e].
  destruct ss as [|fr ss] using rev_ind; [left | right]; eauto 10.
Qed.

(** X1.  The bindings made in a frame die with the frame: pushing a frame,
    binding any names in it and popping it leaves the compiler as it was. *)
Theorem frame_bindings_are_local (l : list (string * Type_)) (cp : Compiler) :
  (pushScope ;;
   foldM (fun (_ : unit) (b : string * Type_) => pushVar b.1 b.2) l tt ;;
   popScope) cp = Ok tt cp.
Proof.
  destruct cp as [nm txt ss e].
  rewrite (bind_eq_Ok _ _ _ _ _ (pushScope_mk nm txt ss e)).
  assert (Hloop : forall fr,
            foldM (fun (_ : unit) (b : string * Type_) => pushVar b.1 b.2) l tt
              (mkCompiler nm txt (ss ++ [fr]) e)
            = Ok tt (mkCompiler nm txt
                       (ss ++ [foldl (fun f (b : string * Type_) =>
                                        <[b.1 := b.2]> f) fr l]) e)).
  { induction l as [|[n t] l IH]; intros fr; [reflexivity|].
    rewrite foldM_cons, (bind_eq_Ok _ _ _ _ _ (pushVar_mk nm txt ss fr e n t)).
    apply IH. }
  rewrite (bind_eq_Ok _ _ _ _ _ (Hloop ∅)). apply popScope_mk.
Qed.

(** X2.  A name bound with a non-nil type in the innermost frame resolves to
    that type, whatever the frames below hold, and no capture is recorded. *)
Theorem bound_name_resolves_locally (n : string) (t : ValueType) (cp : Compiler) :
  scopes cp <> [] ->
  (pushVar n (Some t) ;; ResolveVar n) cp
  = (pushVar n (Some t) ;; ret (Some t)) cp.
Proof.
  intros Hne.
  destruct (Compiler_cases cp) as [(nm & txt & e & ->)|(nm & txt & ss & fr & e & ->)];
    [destruct (Hne eq_refl)|].
  rewrite !(bind_eq_Ok _ _ _ _ _ (pushVar_mk nm txt ss fr e n (Some t))).
  rewrite ResolveVar_mk.
  rewrite (typeOf_snoc_local ss _ n t (lookup_insert_eq _ _ _)).
  rewrite (captureOf_local ss _ e n t (lookup_insert_eq _ _ _)). reflexivity.
Qed.

(** X3.  A binding with the nil type is a key of the frame, so
    [hasVarOnThisScope] reports it, but [ResolveVar] looks through it: the
    name resolves as it does in the frames below, and is recorded as a
    capture when it is found there. *)
Theorem nil_binding_is_seen_but_not_resolved nm txt ss fr e (n : string) :
  (pushVar n None ;; hasVarOnThisScope n) (mkCompiler nm txt (ss ++ [fr]) e)
  = Ok true (mkCompiler nm txt (ss ++ [<[n := None]> fr]) e) /\
  (pushVar n None ;; ResolveVar n) (mkCompiler nm txt (ss ++ [fr]) e)
  = Ok (typeOf ss n)
       (mkCompiler nm txt (ss ++ [<[n := None]> fr])
          (match resolveLoop ss n (length ss) with
           | Some (_, t) => <[n := Some t]> e
           | None => e
           end)).
Proof.
  rewrite !(bind_eq_Ok _ _ _ _ _ (pushVar_mk nm txt ss fr e n None)).
  split.
  - rewrite hasVarOnThisScope_mk, lookup_insert_eq.
    rewrite bool_decide_eq_true_2 by eauto. reflexivity.
  - rewrite ResolveVar_mk. f_equal.
    + apply typeOf_snoc_below. intros v. rewrite lookup_insert_eq. discriminate.
    + f_equal. unfold captureOf. rewrite resolveLoop_snoc, lookup_insert_eq.
      destruct (resolveLoop ss n (length ss)) as [[i t]|] eqn:E; [|reflexivity].
      apply resolveLoop_Some in E as (Hlt & _).
      rewrite length_app, Nat.add_1_r. rewrite decide_True by lia. reflexivity.
Qed.

(** X4.  [popVar] removes the name from the innermost frame for good: after
    [pushVar] it does not bring back a binding that the frame had before,
    and when the frame had none the compiler is as it was. *)
Theorem popVar_after_pushVar (n : string) (t : Type_) (cp : Compiler) :
  (pushVar n t ;; popVar n) cp = popVar n cp /\
  (forall fr, last (scopes cp) = Some fr -> fr !! n = None ->
              (pushVar n t ;; popVar n) cp = Ok tt cp).
Proof.
  destruct (Compiler_cases cp) as [(nm & txt & e & ->)|(nm & txt & ss & fr & e & ->)].
  - split; [reflexivity|]. intros fr Hl. discriminate.
  - rewrite (bind_eq_Ok _ _ _ _ _ (pushVar_mk nm txt ss fr e n t)).
    rewrite !popVar_mk, delete_insert_eq. split; [reflexivity|].
    intros fr' Hl Hn. simpl in Hl. rewrite last_snoc in Hl. injection Hl as <-.
    rewrite delete_id by assumption. reflexivity.
Qed.

(** X5.  With no frame at all, as in a compiler that is not compiling, every
    name is unresolved, [ResolveVar] still returns, and every operation on
    the innermost frame is a Go run-time panic. *)
Theorem no_frame_behaviour (cp : Compiler) (n : string) (t : Type_) (p : Z) :
  scopes cp = [] ->
  ResolveVar n cp = Ok None cp /\
  mustResolveVar n p cp
  = Panicked (Exception (NewContextualError (name cp) (text cp) p
                           ("undefined variable $" ++ n)%string)) /\
  pushVar n t cp = Panicked index_out_of_range /\
  popVar n cp = Panicked index_out_of_range /\
  hasVarOnThisScope n cp = Panicked index_out_of_range /\
  popScope cp = Panicked index_out_of_range.
Proof.
  intros Hs.
  assert (Hr : resolved cp n = None) by (unfold resolved; rewrite Hs; reflexivity).
  split; [exact (ResolveVar_not_found n cp Hr)|].
  split; [exact (mustResolveVar_undefined n p cp Hr)|].
  unfold pushVar, popVar, hasVarOnThisScope, popScope. rewrite Hs. auto.
Qed.

(** X6.  With at most one frame nothing is ever recorded as a capture: neither
    [ResolveVar] nor [resolveCommand] changes the compiler. *)
Theorem single_frame_never_captures `{Builtins}
    (n : string) (cr : commandResolution) (cp : Compiler) :
  (length (scopes cp) <= 1)%nat ->
  ResolveVar n cp = Ok (typeOf (scopes cp) n) cp /\
  exists cr', resolveCommand n cr cp = Ok cr' cp.
Proof.
  intros Hlen.
  assert (Hcap : forall m, captureOf (scopes cp) (enclosed cp) m = enclosed cp).
  { intros m. unfold captureOf.
    destruct (resolveLoop (scopes cp) m (length (scopes cp))) as [[i t]|];
      [|reflexivity].
    rewrite decide_False by lia. reflexivity. }
  destruct cp as [nm txt ss e]. simpl in *. split.
  - rewrite ResolveVar_mk, Hcap. reflexivity.
  - eexists. rewrite resolveCommand_mk, Hcap. reflexivity.
Qed.

(** X7.  What [ResolveVar] records does not depend on how often or in which
    order names are resolved: resolving a name twice is resolving it once,
    and resolving two names in either order ends in the same compiler. *)
Theorem ResolveVar_order_independent (a b : string) (cp : Compiler) :
  (ResolveVar a ;; ResolveVar a) cp = ResolveVar a cp /\
  exists ta tb cp',
    (ResolveVar a ;; ResolveVar b) cp = Ok tb cp' /\
    (ResolveVar b ;; ResolveVar a) cp = Ok ta cp'.
Proof.
  destruct cp as [nm txt ss e].
  assert (Hidem : forall m f, captureOf ss (captureOf ss f m) m = captureOf ss f m).
  { intros m f. unfold captureOf.
    destruct (resolveLoop ss m (length ss)) as [[i t]|]; [|reflexivity].
    destruct (decide _); [|reflexivity]. apply insert_insert_eq. }
  split.
  - rewrite (bind_eq_Ok _ _ _ _ _ (ResolveVar_mk nm txt ss e a)).
    rewrite !ResolveVar_mk, Hidem. reflexivity.
  - rewrite (bind_eq_Ok _ _ _ _ _ (ResolveVar_mk nm txt ss e a)).
    rewrite (bind_eq_Ok _ _ _ _ _ (ResolveVar_mk nm txt ss e b)).
    rewrite !ResolveVar_mk. eexists _, _, _. split; [reflexivity|].
    do 2 f_equal.
    destruct (decide (a = b)) as [->|Hne]; [reflexivity|].
    unfold captureOf.
    destruct (resolveLoop ss a (length ss)) as [[i t]|];
      destruct (resolveLoop ss b (length ss)) as [[j u]|]; try reflexivity.
    repeat destruct (decide _); try reflexivity.
    apply insert_insert_ne. congruence.
Qed.

(** * Further properties of forms *)

(** X8.  The command of a form must be one primary without subscript, a
    literal string or a closure literal.  With any other shape of the
    command word the form fails with "command must be a string or closure"
    at the position of the command word, and nothing of the form is
    compiled.  With one primary of another kind, the primary is compiled
    first: its failure is the failure of the form, and when it compiles
    the form fails with the same message all the same. *)
Theorem command_must_be_string_or_closure `{Builtins}
    (pos cpos sg : Z) (nodes : list SubscriptNode) (args : SpacedNode)
    (redirs : list Redir) (cp : Compiler) :
  let fn := mkFormNode pos (mkCompoundNode cpos sg nodes) args redirs in
  ((forall command, nodes <> [mkSubscriptNode command None]) ->
     compileForm fn cp
     = Panicked (Exception (NewContextualError (name cp) (text cp) cpos
                              command_msg))) /\
  (forall command,
     nodes = [mkSubscriptNode command None] ->
     (forall p s, command <> StringPrimary p s) ->
     (forall p c, command <> ClosurePrimary p c) ->
     match compilePrimary command cp with
     | Ok _ cp1 =>
         compileForm fn cp
         = Panicked (Exception (NewContextualError (name cp1) (text cp1) cpos
                                  command_msg))
     | Panicked v => compileForm fn cp = Panicked v
     end).
Proof.
  cbv zeta. split.
  - intros Hshape.
    destruct nodes as [|[command [r|]] [|sn nodes]];
      try reflexivity. destruct (Hshape command eq_refl).
  - intros command -> Hstr Hclo.
    destruct (compilePrimary command cp) as [cmdOp cp1|v] eqn:HP.
    + cbn [compileForm]. rewrite (bind_eq_Ok _ _ _ _ _ HP).
      destruct command; try reflexivity;
        [destruct (Hstr _ _ eq_refl) | destruct (Hclo _ _ eq_refl)].
    + cbn [compileForm]. apply bind_eq_Panicked. exact HP.
Qed.

(** X9.  A variable reference is never accepted as a command: the form fails
    with "undefined variable" at the reference when the name is unbound,
    and with "command must be a string or closure" at the command word when
    it is bound. *)
Theorem variable_command_is_rejected `{Builtins}
    (pos cpos sg p : Z) (x : string) (args : SpacedNode)
    (redirs : list Redir) (cp : Compiler) :
  compileForm
    (mkFormNode pos
       (mkCompoundNode cpos sg [mkSubscriptNode (VariablePrimary p x) None])
       args redirs) cp
  = Panicked
      (Exception
         (match resolved cp x with
          | Some _ => NewContextualError (name cp) (text cp) cpos command_msg
          | None => NewContextualError (name cp) (text cp) p
                      ("undefined variable $" ++ x)%string
          end)).
Proof.
  cbn [compileForm compilePrimary]. unfold makeVar.
  destruct (resolved cp x) as [[i t]|] eqn:E.
  - pose proof (ResolveVar_found x cp i t E) as HR.
    destruct (ResolveVar_frame _ _ _ _ HR) as (_ & Hn & Ht).
    unfold mustResolveVar, bind. rewrite HR. cbn. unfold errorf.
    rewrite Hn, Ht. reflexivity.
  - unfold bind. rewrite (mustResolveVar_undefined x p cp E). reflexivity.
Qed.

(** X10.  A redirection whose descriptor is the largest uintptr, or lies outside
    uintptr, makes the form fail: [rd.Fd() + 1] wraps around to 0, the port
    table is too short, and the store into it is out of range. *)
Theorem fd_overflow_never_compiles `{Builtins}
    (fn : FormNode) (cp : Compiler) (rd : Redir) :
  rd ∈ FormRedirs fn ->
  ~ (0 <= Fd rd < uintptr_modulus - 1) ->
  forall op cp', compileForm fn cp <> Ok op cp'.
Proof.
  intros Hin Hfd op cp' HC.
  destruct (compileForm_ports _ _ _ _ HC)
    as (cmdOp & tlist & ports & cr & pos & cp0 & cp1 & -> & HP).
  unfold compilePorts in HP.
  destruct (portLoop_Ok _ _ _ _ _ _ HP) as (_ & Hrange & _).
  rewrite length_replicate in Hrange. specialize (Hrange rd Hin).
  destruct (countPorts_loop (FormRedirs fn) 0 ltac:(split; [lia | reflexivity]))
    as (Hn & _ & _).
  fold (countPorts (FormRedirs fn)) in Hn. apply Hfd. lia.
Qed.

(** X11.  What the forwarding loop of [compilePrimary] does, in closed form: of
    the captures of a closure, those whose name is not a key of the
    innermost frame are added to [enclosed], over what [enclosed] held;
    the order in which Go visits the map does not matter.  With nothing to
    forward the loop does nothing, even without a frame. *)
Theorem forwardEnclosed_spec (enc : gmap string Type_) nm txt ss fr e :
  forwardEnclosed enc (mkCompiler nm txt (ss ++ [fr]) e)
  = Ok tt (mkCompiler nm txt (ss ++ [fr])
             (filter (fun kv => ~ is_Some (fr !! kv.1)) enc ∪ e)) /\
  (forall cp, forwardEnclosed ∅ cp = Ok tt cp).
Proof.
  split.
  - destruct (forwardEnclosed_mk enc nm txt ss fr e) as (e' & -> & Hspec).
    do 2 f_equal. apply map_eq. intros k. rewrite Hspec.
    rewrite lookup_union.
    destruct (enc !! k) as [v|] eqn:E.
    + destruct (decide (is_Some (fr !! k))) as [Hs|Hs].
      * rewrite (map_lookup_filter_None_2 _ enc k); [|right; intros w _ Hn; exact (Hn Hs)].
        destruct (e !! k); reflexivity.
      * rewrite (map_lookup_filter_Some_2 _ enc k v E Hs).
        destruct (e !! k); reflexivity.
    + rewrite (map_lookup_filter_None_2 _ enc k); [|left; exact E].
      destruct (e !! k); reflexivity.
  - intros cp. unfold forwardEnclosed. rewrite map_to_list_empty. reflexivity.
Qed.

(** * Further properties of sequences *)

Lemma forM_cons {A C} (f : A -> M C) x r :
  forM f (x :: r)
  = (let* y := f x in let* ys := forM f r in ret (y :: ys)).
Proof. reflexivity. Qed.

Lemma forM_app_Ok {A C} (f : A -> M C) pre l cp ys cp1 :
  forM f pre cp = Ok ys cp1 ->
  forM f (pre ++ l) cp = (let* zs := forM f l in ret (ys ++ zs)%list) cp1.
Proof.
  revert cp ys. induction pre as [|x pre IH]; intros cp ys Hb.
  - injection Hb as <- <-. simpl. unfold bind, ret.
    destruct (forM f l cp); reflexivity.
  - rewrite forM_cons in Hb. apply bind_Ok in Hb as (y & cp2 & Hx & Hb).
    apply bind_Ok in Hb as (ys' & cp3 & Hpre & Hb). injection Hb as <- <-.
    change (((x :: pre) ++ l)%list) with (x :: (pre ++ l)%list).
    rewrite forM_cons, (bind_eq_Ok _ _ _ _ _ Hx).
    unfold bind at 1. rewrite (IH _ _ Hpre).
    unfold bind, ret. destruct (forM f l cp3); reflexivity.
Qed.

(** X12.  Compilation stops at the first failure.  When the pipelines before
    [pn] compile and [pn] fails, the chunk fails as [pn] does, whatever
    comes after [pn]; a failure raised by [errorf] is then the error that
    [Compile] returns, without an op, and any other panic leaves
    [Compile] as it is. *)
Theorem first_failure_wins `{Builtins}
    (nm txt : string) (scope : gmap string Type_)
    (pre : list PipelineNode) (pn : PipelineNode) (post : list PipelineNode)
    (ops : list valuesOp) (cp1 : Compiler) (v : PanicValue) :
  forM compilePipeline pre (startCompile nm txt scope) = Ok ops cp1 ->
  compilePipeline pn cp1 = Panicked v ->
  compileChunk (mkChunkNode (pre ++ pn :: post)) (startCompile nm txt scope)
  = Panicked v /\
  Compile nm txt (mkChunkNode (pre ++ pn :: post)) scope
  = match v with
    | Exception e => Returned None (Some e)
    | GoPanic _ => Propagated v
    end.
Proof.
  intros Hpre Hpn.
  assert (HC : compileChunk (mkChunkNode (pre ++ pn :: post))
                 (startCompile nm txt scope) = Panicked v).
  { unfold compileChunk. apply bind_eq_Panicked.
    rewrite (forM_app_Ok _ _ _ _ _ _ Hpre).
    apply bind_eq_Panicked. cbn [forM]. apply bind_eq_Panicked. exact Hpn. }
  split; [exact HC|]. unfold Compile. rewrite HC. destruct v; reflexivity.
Qed.

(** * Invariants of the whole pass *)

(** ** Induction on syntax trees *)

Section TreeInduction.
Variables (PP : PrimaryNode -> Prop) (PT : TableNode -> Prop)
          (PTP : TablePair -> Prop) (PCl : ClosureNode -> Prop)
          (PCh : ChunkNode -> Prop) (PSp : SpacedNode -> Prop)
          (PCo : CompoundNode -> Prop) (PSu : SubscriptNode -> Prop)
          (PPi : PipelineNode -> Prop) (PF : FormNode -> Prop)
          (PR : Redir -> Prop).
Hypothesis HString : forall p s, PP (StringPrimary p s).
Hypothesis HVariable : forall p s, PP (VariablePrimary p s).
Hypothesis HTablePrimary : forall p t, PT t -> PP (TablePrimary p t).
Hypothesis HClosurePrimary : forall p c, PCl c -> PP (ClosurePrimary p c).
Hypothesis HListPrimary : forall p s, PSp s -> PP (ListPrimary p s).
Hypothesis HChanCapture : forall p pn, PPi pn -> PP (ChanCapturePrimary p pn).
Hypothesis HStatusCapture :
  forall p pn, PPi pn -> PP (StatusCapturePrimary p pn).
Hypothesis HUnknownPrimary : forall p t, PP (UnknownPrimary p t).
Hypothesis HTable :
  forall l d, Forall PCo l -> Forall PTP d -> PT (mkTableNode l d).
Hypothesis HPair : forall k v, PCo k -> PCo v -> PTP (mkTablePair k v).
Hypothesis HClosure : forall ch, PCh ch -> PCl (mkClosureNode ch).
Hypothesis HChunk : forall nodes, Forall PPi nodes -> PCh (mkChunkNode nodes).
Hypothesis HSpaced : forall nodes, Forall PCo nodes -> PSp (mkSpacedNode nodes).
Hypothesis HCompound :
  forall p sg nodes, Forall PSu nodes -> PCo (mkCompoundNode p sg nodes).
Hypothesis HSubscriptNone : forall l, PP l -> PSu (mkSubscriptNode l None).
Hypothesis HSubscriptSome :
  forall l r, PP l -> PCo r -> PSu (mkSubscriptNode l (Some r)).
Hypothesis HPipeline :
  forall p nodes, Forall PF nodes -> PPi (mkPipelineNode p nodes).
Hypothesis HForm :
  forall p c a rs, PCo c -> PSp a -> Forall PR rs -> PF (mkFormNode p c a rs).
Hypothesis HCloseRedir : forall p fd, PR (CloseRedir p fd).
Hypothesis HFdRedir : forall p fd old, PR (FdRedir p fd old).
Hypothesis HFilenameRedir :
  forall p fd flag f, PCo f -> PR (FilenameRedir p fd flag f).
Hypothesis HUnknownRedir : forall fd, PR (UnknownRedir fd).

Fixpoint PrimaryNode_holds (fn : PrimaryNode) {struct fn} : PP fn :=
  match fn with
  | StringPrimary p s => HString p s
  | VariablePrimary p s => HVariable p s
  | TablePrimary p t => HTablePrimary p t (TableNode_holds t)
  | ClosurePrimary p c => HClosurePrimary p c (ClosureNode_holds c)
  | ListPrimary p s => HListPrimary p s (SpacedNode_holds s)
  | ChanCapturePrimary p pn => HChanCapture p pn (PipelineNode_holds pn)
  | StatusCapturePrimary p pn => HStatusCapture p pn (PipelineNode_holds pn)
  | UnknownPrimary p t => HUnknownPrimary p t
  end
with TableNode_holds (t : TableNode) {struct t} : PT t :=
  match t with
  | mkTableNode l d =>
      HTable l d
        ((fix go (l : list CompoundNode) : Forall PCo l :=
            match l with
            | [] => @List.Forall_nil _ PCo
            | x :: r => @List.Forall_cons _ PCo x r (CompoundNode_holds x) (go r)
            end) l)
        ((fix go (l : list TablePair) : Forall PTP l :=
            match l with
            | [] => @List.Forall_nil _ PTP
            | x :: r => @List.Forall_cons _ PTP x r (TablePair_holds x) (go r)
            end) d)
  end
with TablePair_holds (tp : TablePair) {struct tp} : PTP tp :=
  match tp with
  | mkTablePair k v => HPair k v (CompoundNode_holds k) (CompoundNode_holds v)
  end
with ClosureNode_holds (cn : ClosureNode) {struct cn} : PCl cn :=
  match cn with
  | mkClosureNode ch => HClosure ch (ChunkNode_holds ch)
  end
with ChunkNode_holds (ch : ChunkNode) {struct ch} : PCh ch :=
  match ch with
  | mkChunkNode nodes =>
      HChunk nodes
        ((fix go (l : list PipelineNode) : Forall PPi l :=
            match l with
            | [] => @List.Forall_nil _ PPi
            | x :: r => @List.Forall_cons _ PPi x r (PipelineNode_holds x) (go r)
            end) nodes)
  end
with SpacedNode_holds (ln : SpacedNode) {struct ln} : PSp ln :=
  match ln with
  | mkSpacedNode nodes =>
      HSpaced nodes
        ((fix go (l : list CompoundNode) : Forall PCo l :=
            match l with
            | [] => @List.Forall_nil _ PCo
            | x :: r => @List.Forall_cons _ PCo x r (CompoundNode_holds x) (go r)
            end) nodes)
  end
with CompoundNode_holds (tn : CompoundNode) {struct tn} : PCo tn :=
  match tn with
  | mkCompoundNode p sg nodes =>
      HCompound p sg nodes
        ((fix go (l : list SubscriptNode) : Forall PSu l :=
            match l with
            | [] => @List.Forall_nil _ PSu
            | x :: r => @List.Forall_cons _ PSu x r (SubscriptNode_holds x) (go r)
            end) nodes)
  end
with SubscriptNode_holds (sn : SubscriptNode) {struct sn} : PSu sn :=
  match sn with
  | mkSubscriptNode l None => HSubscriptNone l (PrimaryNode_holds l)
  | mkSubscriptNode l (Some r) =>
      HSubscriptSome l r (PrimaryNode_holds l) (CompoundNode_holds r)
  end
with PipelineNode_holds (pn : PipelineNode) {struct pn} : PPi pn :=
  match pn with
  | mkPipelineNode p nodes =>
      HPipeline p nodes
        ((fix go (l : list FormNode) : Forall PF l :=
            match l with
            | [] => @List.Forall_nil _ PF
            | x :: r => @List.Forall_cons _ PF x r (FormNode_holds x) (go r)
            end) nodes)
  end
with FormNode_holds (fn : FormNode) {struct fn} : PF fn :=
  match fn with
  | mkFormNode p c a rs =>
      HForm p c a rs (CompoundNode_holds c) (SpacedNode_holds a)
        ((fix go (l : list Redir) : Forall PR l :=
            match l with
            | [] => @List.Forall_nil _ PR
            | x :: r => @List.Forall_cons _ PR x r (Redir_holds x) (go r)
            end) rs)
  end
with Redir_holds (rd : Redir) {struct rd} : PR rd :=
  match rd with
  | CloseRedir p fd => HCloseRedir p fd
  | FdRedir p fd old => HFdRedir p fd old
  | FilenameRedir p fd flag f => HFilenameRedir p fd flag f (CompoundNode_holds f)
  | UnknownRedir fd => HUnknownRedir fd
  end.

End TreeInduction.

(** ** The discipline is kept by every step *)

Lemma frame_ok_refl cp : frame_ok cp cp.
Proof. unfold frame_ok. auto. Qed.

Lemma frame_ok_trans cp cp1 cp2 :
  frame_ok cp cp1 -> frame_ok cp1 cp2 -> frame_ok cp cp2.
Proof.
  intros (Hn & Ht & Hl & Hf) (Hn' & Ht' & Hl' & Hf').
  unfold frame_ok. repeat split; try congruence.
  intros i Hi. rewrite Hf' by lia. apply Hf. exact Hi.
Qed.

Lemma error_in_context_frame cp cp1 v :
  frame_ok cp cp1 -> error_in_context cp1 v -> error_in_context cp v.
Proof.
  intros (Hn & Ht & _). destruct v as [e|msg]; [|trivial].
  simpl. rewrite Hn, Ht. trivial.
Qed.

Lemma scopeAt_frame cp cp' i k :
  frame_ok cp cp' -> (i < length (scopes cp) - 1)%nat ->
  scopeAt (scopes cp') i k = scopeAt (scopes cp) i k.
Proof. intros (_ & _ & _ & Hf) Hi. unfold scopeAt. rewrite Hf by exact Hi. reflexivity. Qed.

(** A step that keeps the frames below the innermost one and does not
    touch [enclosed] keeps [enclosed] sound. *)
Lemma enclosed_sound_frame cp cp' :
  frame_ok cp cp' -> enclosed cp' = enclosed cp ->
  enclosed_sound cp -> enclosed_sound cp'.
Proof.
  intros Hf He Hs k v Hk. rewrite He in Hk.
  destruct (Hs k v Hk) as (i & t & -> & Hi & Hat).
  exists i, t. destruct Hf as (Hn & Ht & Hl & Hlow) eqn:E.
  split; [reflexivity|]. split; [lia|].
  rewrite (scopeAt_frame cp cp' i k) by (unfold frame_ok; auto). exact Hat.
Qed.

Lemma behaves_ret {A} (a : A) : behaves (ret a).
Proof. intros cp. simpl. split; [apply frame_ok_refl | auto]. Qed.

(** Sequencing, with what is known of the first result. *)
Lemma behaves_bind_post {A C} (Q : A -> Prop) (m : M A) (k : A -> M C) :
  behaves m ->
  (forall cp a cp', m cp = Ok a cp' -> Q a) ->
  (forall a, Q a -> behaves (k a)) ->
  behaves (bind m k).
Proof.
  intros Hm HQ Hk cp. unfold bind. specialize (Hm cp).
  destruct (m cp) as [a cp1|v] eqn:E; [|exact Hm].
  destruct Hm as [Hf Hs]. specialize (Hk a (HQ _ _ _ E) cp1).
  destruct (k a cp1) as [c cp2|v].
  - destruct Hk as [Hf' Hs']. split; [exact (frame_ok_trans _ _ _ Hf Hf') | auto].
  - exact (error_in_context_frame _ _ _ Hf Hk).
Qed.

Lemma behaves_bind {A C} (m : M A) (k : A -> M C) :
  behaves m -> (forall a, behaves (k a)) -> behaves (bind m k).
Proof.
  intros Hm Hk. apply (behaves_bind_post (fun _ => True)); auto.
Qed.

Lemma behaves_errorf {A} p msg : behaves (@errorf A p msg).
Proof. intros cp. simpl. auto. Qed.

Lemma behaves_GoPanic {A} msg : behaves (@panic A (GoPanic msg)).
Proof. intros cp. exact I. Qed.

Lemma behaves_ResolveVar n : behaves (ResolveVar n).
Proof.
  intros cp. destruct (resolved cp n) as [[i t]|] eqn:E.
  - rewrite (ResolveVar_found n cp i t E).
    destruct (decide (i < length (scopes cp) - 1)%nat) as [Hlt|Hge];
      [|split; [apply frame_ok_refl | auto]].
    split; [unfold frame_ok; simpl; auto|].
    intros Hs k v Hk. simpl in *.
    destruct (decide (k = n)) as [->|Hne].
    + rewrite lookup_insert_eq in Hk. injection Hk as <-.
      apply resolveLoop_Some in E as (_ & Hat & _). eauto.
    + rewrite lookup_insert_ne in Hk by congruence. exact (Hs k v Hk).
  - rewrite (ResolveVar_not_found n cp E). split; [apply frame_ok_refl | auto].
Qed.

Lemma behaves_mustResolveVar n p : behaves (mustResolveVar n p).
Proof.
  apply behaves_bind; [apply behaves_ResolveVar|].
  intros [t|]; [apply behaves_ret | apply behaves_errorf].
Qed.

Lemma behaves_makeVar `{Builtins} n p : behaves (makeVar n p).
Proof.
  apply behaves_bind; [apply behaves_mustResolveVar | intros t; apply behaves_ret].
Qed.

Lemma behaves_resolveCommand `{Builtins} n cr : behaves (resolveCommand n cr).
Proof.
  apply behaves_bind; [apply behaves_ResolveVar|].
  intros t. destruct (isClosureType t); [apply behaves_ret|].
  destruct (builtinSpecials !! n); [apply behaves_ret|].
  destruct (builtinFuncs !! n); apply behaves_ret.
Qed.

Lemma behaves_forM {A C} (f : A -> M C) l :
  Forall (fun x => behaves (f x)) l -> behaves (forM f l).
Proof.
  induction 1 as [|x l Hx Hl IH]; [apply behaves_ret|].
  rewrite forM_cons. apply behaves_bind; [exact Hx|].
  intros y. apply behaves_bind; [exact IH | intros ys; apply behaves_ret].
Qed.

Lemma behaves_foldM {A S} (f : S -> A -> M S) l :
  Forall (fun x => forall acc, behaves (f acc x)) l ->
  forall acc, behaves (foldM f l acc).
Proof.
  induction 1 as [|x l Hx Hl IH]; intros acc; [apply behaves_ret|].
  rewrite foldM_cons. apply behaves_bind; [apply Hx | exact IH].
Qed.

Lemma behaves_setPort `{Builtins} ports fd p : behaves (setPort ports fd p).
Proof.
  unfold setPort. destruct (_ && _); [apply behaves_ret | apply behaves_GoPanic].
Qed.

Lemma behaves_compilePorts `{Builtins} (f : Redir -> M portOp) redirs n :
  Forall (fun rd => behaves (f rd)) redirs -> behaves (compilePorts f redirs n).
Proof.
  intros Hall. apply behaves_foldM.
  eapply Forall_impl; [exact Hall|]. intros rd Hrd acc.
  apply behaves_bind; [exact Hrd | intros p; apply behaves_setPort].
Qed.

(** [pushVar] and [popVar] touch the innermost frame only. *)
Lemma behaves_alter_innermost (g : gmap string Type_ -> gmap string Type_) cp :
  frame_ok cp
    (set_scopes cp (alter g (length (scopes cp) - 1)%nat (scopes cp))).
Proof.
  unfold frame_ok, set_scopes. simpl. rewrite length_alter.
  repeat split. intros i Hi. apply list_lookup_alter_ne. lia.
Qed.

Lemma behaves_pushVar n t : behaves (pushVar n t).
Proof.
  intros cp. unfold pushVar. destruct (scopes cp) eqn:E; [exact I|].
  rewrite <- E. split; [apply behaves_alter_innermost|].
  apply enclosed_sound_frame; [apply behaves_alter_innermost | reflexivity].
Qed.

Lemma behaves_popVar n : behaves (popVar n).
Proof.
  intros cp. unfold popVar. destruct (scopes cp) eqn:E; [exact I|].
  rewrite <- E. split; [apply behaves_alter_innermost|].
  apply enclosed_sound_frame; [apply behaves_alter_innermost | reflexivity].
Qed.

Lemma snoc_of_frame {A} (ss l : list A) (x : A) :
  length l = length (ss ++ [x])%list ->
  (forall i, (i < length (ss ++ [x])%list - 1)%nat ->
             l !! i = (ss ++ [x])%list !! i) ->
  exists y, l = (ss ++ [y])%list.
Proof.
  rewrite length_app, Nat.add_1_r. simpl.
  destruct l as [|y l _] using rev_ind; [discriminate|].
  rewrite length_app, Nat.add_1_r. intros [= Hlen] Hlow.
  exists y. f_equal. apply list_eq. intros i.
  destruct (decide (i < length ss)%nat) as [Hi|Hi].
  - specialize (Hlow i ltac:(lia)).
    rewrite !lookup_app_l in Hlow by lia. exact Hlow.
  - rewrite !lookup_ge_None_2 by lia. reflexivity.
Qed.

(** A closure whose body keeps the discipline. *)
Lemma closure_from_body `{Builtins} nodes :
  behaves (forM compilePipeline nodes) ->
  closure_behaves (mkClosureNode (mkChunkNode nodes)).
Proof.
  intros Hbody [nm txt ss e]. cbn [compileClosure].
  rewrite (bind_eq_Ok _ _ _ _ _ (pushScope_mk nm txt ss e)).
  unfold bind at 1. specialize (Hbody (mkCompiler nm txt (ss ++ [∅]) e)).
  destruct (forM compilePipeline nodes (mkCompiler nm txt (ss ++ [∅]) e))
    as [ops [nm2 txt2 ss2 e2]|v]; [|exact Hbody].
  destruct Hbody as [(Hn & Ht & Hl & Hlow) Hs]. simpl in Hn, Ht, Hl, Hlow.
  subst nm2 txt2.
  destruct (snoc_of_frame ss ss2 ∅ Hl Hlow) as [fr ->].
  unfold bind at 1. unfold getEnclosed at 1. cbn [enclosed].
  unfold bind at 1. unfold setEnclosed at 1, set_enclosed. cbn [name text scopes].
  rewrite (bind_eq_Ok _ _ _ _ _ (popScope_mk nm txt ss fr ∅)).
  unfold ret. cbn [name text scopes enclosed fst snd].
  repeat split. intros Hsound.
  assert (Hs1 : enclosed_sound (mkCompiler nm txt (ss ++ [∅]) e)).
  { intros k v Hk. destruct (Hsound k v Hk) as (i & t & -> & Hi & Hat).
    simpl in *. exists i, t. split; [reflexivity|].
    rewrite length_app, Nat.add_1_r. split; [lia|].
    rewrite scopeAt_app_l by lia. exact Hat. }
  intros k v Hk. destruct (Hs Hs1 k v Hk) as (i & t & -> & Hi & Hat).
  simpl in *. rewrite length_app, Nat.add_1_r in Hi.
  exists i, t. split; [reflexivity|]. split; [lia|].
  rewrite scopeAt_app_l in Hat by lia. exact Hat.
Qed.

(** Forwarding never touches the scopes and panics only in Go. *)
Lemma forward_frame (enc : gmap string Type_) cp :
  match forwardEnclosed enc cp with
  | Ok _ cp' => frame_ok cp cp'
  | Panicked v => error_in_context cp v
  end.
Proof.
  destruct (Compiler_cases cp) as [(nm & txt & e & ->)|(nm & txt & ss & fr & e & ->)].
  - unfold forwardEnclosed. destruct (map_to_list enc) as [|kv l]; simpl.
    + apply frame_ok_refl.
    + exact I.
  - destruct (forwardEnclosed_mk enc nm txt ss fr e) as (e' & -> & _).
    unfold frame_ok; simpl; auto.
Qed.

(** Forwarding sound captures to a unit whose [enclosed] is empty. *)
Lemma forward_sound (enc : gmap string Type_) cp :
  captures_sound (scopes cp) (length (scopes cp)) enc ->
  enclosed cp = ∅ ->
  match forwardEnclosed enc cp with
  | Ok _ cp' => frame_ok cp cp' /\ enclosed_sound cp'
  | Panicked v => error_in_context cp v
  end.
Proof.
  intros Hsound Hempty.
  destruct (Compiler_cases cp) as [(nm & txt & e & ->)|(nm & txt & ss & fr & e & ->)].
  - unfold forwardEnclosed. destruct (map_to_list enc) as [|kv l]; simpl.
    + split; [apply frame_ok_refl|]. intros k v Hk. simpl in *.
      rewrite Hempty, lookup_empty in Hk. discriminate.
    + exact I.
  - simpl in Hempty. subst e.
    destruct (forwardEnclosed_mk enc nm txt ss fr ∅) as (e' & -> & Hspec).
    split; [unfold frame_ok; simpl; auto|].
    intros k v Hk. simpl in *. rewrite Hspec, lookup_empty in Hk.
    destruct (enc !! k) as [v0|] eqn:E; [|discriminate].
    destruct (decide (is_Some (fr !! k))) as [Hfr|Hfr]; [discriminate|].
    injection Hk as <-.
    destruct (Hsound k v0 E) as (i & t & -> & Hi & Hat).
    rewrite length_app, Nat.add_1_r in Hi |- *.
    exists i, t. split; [reflexivity|]. split; [|exact Hat].
    destruct (decide (i = length ss)) as [->|Hne]; [|simpl; lia].
    exfalso. apply Hfr. unfold scopeAt in Hat.
    rewrite list_lookup_middle in Hat by reflexivity.
    destruct (fr !! k); [eauto | discriminate].
Qed.

Section WholePass.
Context `{Builtins}.
Hypothesis Hspecials : specials_behave.

Let PP (fn : PrimaryNode) : Prop := behaves (compilePrimary fn).
Let PT (t : TableNode) : Prop :=
  forall p, behaves (compilePrimary (TablePrimary p t)).
Let PTP (tp : TablePair) : Prop :=
  behaves (match tp with
           | mkTablePair k v =>
               let* kop := compileCompound k in
               let* vop := compileCompound v in
               ret (kop, vop)
           end).
Let PCl (cn : ClosureNode) : Prop := closure_behaves cn.
Let PCh (ch : ChunkNode) : Prop :=
  behaves (compileChunk ch) /\ closure_behaves (mkClosureNode ch).
Let PSp (ln : SpacedNode) : Prop := behaves (compileSpaced ln).
Let PCo (tn : CompoundNode) : Prop :=
  behaves (compileCompound tn) /\
  Forall (fun sn => behaves (compilePrimary (SubscriptLeft sn)))
         (CompoundNodes tn).
Let PSu (sn : SubscriptNode) : Prop :=
  behaves (compileSubscript sn) /\ behaves (compilePrimary (SubscriptLeft sn)).
Let PPi (pn : PipelineNode) : Prop := behaves (compilePipeline pn).
Let PF (fn : FormNode) : Prop := behaves (compileForm fn).
Let PR (rd : Redir) : Prop := behaves (compileRedir rd).

Lemma compounds_behave (l : list CompoundNode) :
  Forall PCo l -> behaves (forM compileCompound l).
Proof.
  intros Hall. apply behaves_forM.
  eapply Forall_impl; [exact Hall|]. intros tn [Htn _]. exact Htn.
Qed.

Lemma table_case l d : Forall PCo l -> Forall PTP d -> PT (mkTableNode l d).
Proof.
  intros Hl Hd p. cbn [compilePrimary].
  apply behaves_bind; [exact (compounds_behave l Hl)|]. intros lops.
  apply behaves_bind; [|intros kvs; apply behaves_ret].
  apply behaves_forM. eapply Forall_impl; [exact Hd|].
  intros tp Htp. exact Htp.
Qed.

Lemma pair_case k v : PCo k -> PCo v -> PTP (mkTablePair k v).
Proof.
  intros [Hk _] [Hv _]. unfold PTP.
  apply behaves_bind; [exact Hk|]. intros kop.
  apply behaves_bind; [exact Hv | intros vop; apply behaves_ret].
Qed.

Lemma closure_primary_case p c : PCl c -> PP (ClosurePrimary p c).
Proof.
  intros Hc cp. cbn [compilePrimary]. unfold bind at 1.
  specialize (Hc cp).
  destruct (compileClosure c cp) as [[op enc] cp1|v]; [|exact Hc].
  destruct Hc as (Hn & Ht & Hsc & He & Hsound). cbn [fst snd] in *.
  assert (Hf1 : frame_ok cp cp1)
    by (unfold frame_ok; rewrite Hn, Ht, Hsc; auto).
  unfold bind at 1.
  pose proof (forward_frame enc cp1) as Hfr.
  pose proof (forward_sound enc cp1) as Hfw. rewrite Hsc in Hfw.
  destruct (forwardEnclosed enc cp1) as [[] cp2|v].
  - unfold ret. split; [exact (frame_ok_trans _ _ _ Hf1 Hfr)|].
    intros Hs. exact (proj2 (Hfw (Hsound Hs) He)).
  - exact (error_in_context_frame _ _ _ Hf1 Hfr).
Qed.

Lemma chunk_case nodes : Forall PPi nodes -> PCh (mkChunkNode nodes).
Proof.
  intros Hall.
  assert (Hbody : behaves (forM compilePipeline nodes))
    by (apply behaves_forM; exact Hall).
  split; [|exact (closure_from_body nodes Hbody)].
  apply behaves_bind; [exact Hbody | intros ops; apply behaves_ret].
Qed.

Lemma spaced_case nodes : Forall PCo nodes -> PSp (mkSpacedNode nodes).
Proof.
  intros Hall. apply behaves_bind; [exact (compounds_behave nodes Hall)|].
  intros ops. apply behaves_ret.
Qed.

Lemma compound_case p sg nodes :
  Forall PSu nodes -> PCo (mkCompoundNode p sg nodes).
Proof.
  intros Hall. split.
  - cbn [compileCompound]. apply behaves_bind.
    + apply behaves_forM. eapply Forall_impl; [exact Hall|].
      intros sn [Hsn _]. exact Hsn.
    + intros ops. destruct (sg =? NoSigil); [apply behaves_ret|].
      apply behaves_bind; [apply behaves_resolveCommand|].
      intros cr. apply behaves_ret.
  - cbn [CompoundNodes]. eapply Forall_impl; [exact Hall|].
    intros sn [_ Hl]. exact Hl.
Qed.

Lemma subscript_none_case l : PP l -> PSu (mkSubscriptNode l None).
Proof. intros Hl. split; exact Hl. Qed.

Lemma subscript_some_case l r : PP l -> PCo r -> PSu (mkSubscriptNode l (Some r)).
Proof.
  intros Hl [Hr _]. split; [|exact Hl]. cbn [compileSubscript].
  apply behaves_bind; [exact Hl|]. intros left.
  apply behaves_bind; [exact Hr | intros right; apply behaves_ret].
Qed.

Lemma pipeline_case p nodes : Forall PF nodes -> PPi (mkPipelineNode p nodes).
Proof.
  intros Hall. apply behaves_bind; [apply behaves_forM; exact Hall|].
  intros ops. apply behaves_ret.
Qed.

(** A resolution of the special kind carries a handle from the registry. *)
Lemma resolveCommand_special n cp cr cp' :
  resolveCommand n newCommandResolution cp = Ok cr cp' ->
  cr_commandType cr = commandBuiltinSpecial ->
  exists bs, cr_builtinSpecial cr = Some bs /\ builtinSpecials !! n = Some bs.
Proof.
  destruct (ResolveVar_total ("fn-" ++ n)%string cp) as [cp1 HR].
  rewrite (resolveCommand_eq n _ cp _ cp1 HR). intros [= <- <-].
  destruct (isClosureType _); [discriminate|].
  destruct (builtinSpecials !! n) as [bs|]; [eauto|].
  destruct (builtinFuncs !! n); discriminate.
Qed.

Lemma form_case p c a rs : PCo c -> PSp a -> Forall PR rs -> PF (mkFormNode p c a rs).
Proof.
  intros [_ Hnodes] Ha Hrs. destruct c as [cpos sg cnodes].
  cbn [CompoundNodes] in Hnodes.
  unfold PF.
  destruct cnodes as [|[command [r|]] [|sn cnodes]];
    cbn [compileForm]; try apply behaves_errorf.
  apply Forall_cons in Hnodes as [Hcmd _]. cbn [SubscriptLeft] in Hcmd.
  apply behaves_bind; [exact Hcmd|]. intros cmdOp.
  apply (behaves_bind_post
           (fun cr => cr_commandType cr = commandBuiltinSpecial ->
                      exists n bs, cr_builtinSpecial cr = Some bs /\
                                   builtinSpecials !! n = Some bs)).
  - destruct command;
      first [apply behaves_resolveCommand | apply behaves_ret | apply behaves_errorf].
  - intros cp cr cp' Hres Hty. destruct command; try discriminate.
    + destruct (resolveCommand_special _ _ _ _ Hres Hty) as (bs & Hbs & Hreg).
      eauto.
    + injection Hres as <- _. discriminate.
  - intros cr Hcr.
    apply behaves_bind; [apply behaves_compilePorts; exact Hrs|]. intros ports.
    destruct (decide (cr_commandType cr = commandBuiltinSpecial)) as [Hty|Hty].
    + destruct (Hcr Hty) as (n & bs & -> & Hreg).
      apply behaves_bind; [exact (Hspecials n bs _ Hreg)|].
      intros sop. apply behaves_ret.
    + apply behaves_bind; [exact Ha | intros tlist; apply behaves_ret].
Qed.

Lemma filename_redir_case p fd flag f : PCo f -> PR (FilenameRedir p fd flag f).
Proof.
  intros [Hf _]. unfold PR. cbn [compileRedir].
  apply behaves_bind; [exact Hf | intros op; apply behaves_ret].
Qed.

(** Every compiling function keeps the discipline. *)
Lemma compile_behaves :
  (forall fn, behaves (compilePrimary fn)) /\
  (forall cn, closure_behaves cn) /\
  (forall ch, behaves (compileChunk ch)) /\
  (forall ln, behaves (compileSpaced ln)) /\
  (forall tn, behaves (compileCompound tn)) /\
  (forall sn, behaves (compileSubscript sn)) /\
  (forall pn, behaves (compilePipeline pn)) /\
  (forall fn, behaves (compileForm fn)) /\
  (forall rd, behaves (compileRedir rd)).
Proof.
  assert (HString : forall p s, PP (StringPrimary p s))
    by (intros p s; apply behaves_ret).
  assert (HVariable : forall p s, PP (VariablePrimary p s))
    by (intros p s; apply behaves_makeVar).
  assert (HTablePrimary : forall p t, PT t -> PP (TablePrimary p t))
    by (intros p t Ht; exact (Ht p)).
  assert (HListPrimary : forall p s, PSp s -> PP (ListPrimary p s))
    by (intros p s Hs; exact Hs).
  assert (HChan : forall p pn, PPi pn -> PP (ChanCapturePrimary p pn)).
  { intros p pn Hpn. unfold PP. cbn [compilePrimary].
    apply behaves_bind; [exact Hpn | intros op; apply behaves_ret]. }
  assert (HStatus : forall p pn, PPi pn -> PP (StatusCapturePrimary p pn))
    by (intros p pn Hpn; exact Hpn).
  assert (HUnknown : forall p t, PP (UnknownPrimary p t))
    by (intros p t; apply behaves_GoPanic).
  assert (HClosure : forall ch, PCh ch -> PCl (mkClosureNode ch))
    by (intros ch [_ Hc]; exact Hc).
  assert (HClose : forall p fd, PR (CloseRedir p fd))
    by (intros p fd; apply behaves_ret).
  assert (HFd : forall p fd old, PR (FdRedir p fd old))
    by (intros p fd old; apply behaves_ret).
  assert (HUnknownR : forall fd, PR (UnknownRedir fd))
    by (intros fd; apply behaves_GoPanic).
  pose proof (PrimaryNode_holds PP PT PTP PCl PCh PSp PCo PSu PPi PF PR
                HString HVariable HTablePrimary closure_primary_case
                HListPrimary HChan HStatus HUnknown table_case pair_case
                HClosure chunk_case spaced_case compound_case
                subscript_none_case subscript_some_case pipeline_case
                form_case HClose HFd filename_redir_case HUnknownR) as HP.
  pose proof (ClosureNode_holds PP PT PTP PCl PCh PSp PCo PSu PPi PF PR
                HString HVariable HTablePrimary closure_primary_case
                HListPrimary HChan HStatus HUnknown table_case pair_case
                HClosure chunk_case spaced_case compound_case
                subscript_none_case subscript_some_case pipeline_case
                form_case HClose HFd filename_redir_case HUnknownR) as HCl.
  pose proof (ChunkNode_holds PP PT PTP PCl PCh PSp PCo PSu PPi PF PR
                HString HVariable HTablePrimary closure_primary_case
                HListPrimary HChan HStatus HUnknown table_case pair_case
                HClosure chunk_case spaced_case compound_case
                subscript_none_case subscript_some_case pipeline_case
                form_case HClose HFd filename_redir_case HUnknownR) as HCh.
  pose proof (SpacedNode_holds PP PT PTP PCl PCh PSp PCo PSu PPi PF PR
                HString HVariable HTablePrimary closure_primary_case
                HListPrimary HChan HStatus HUnknown table_case pair_case
                HClosure chunk_case spaced_case compound_case
                subscript_none_case subscript_some_case pipeline_case
                form_case HClose HFd filename_redir_case HUnknownR) as HSp.
  pose proof (CompoundNode_holds PP PT PTP PCl PCh PSp PCo PSu PPi PF PR
                HString HVariable HTablePrimary closure_primary_case
                HListPrimary HChan HStatus HUnknown table_case pair_case
                HClosure chunk_case spaced_case compound_case
                subscript_none_case subscript_some_case pipeline_case
                form_case HClose HFd filename_redir_case HUnknownR) as HCo.
  pose proof (SubscriptNode_holds PP PT PTP PCl PCh PSp PCo PSu PPi PF PR
                HString HVariable HTablePrimary closure_primary_case
                HListPrimary HChan HStatus HUnknown table_case pair_case
                HClosure chunk_case spaced_case compound_case
                subscript_none_case subscript_some_case pipeline_case
                form_case HClose HFd filename_redir_case HUnknownR) as HSu.
  pose proof (PipelineNode_holds PP PT PTP PCl PCh PSp PCo PSu PPi PF PR
                HString HVariable HTablePrimary closure_primary_case
                HListPrimary HChan HStatus HUnknown table_case pair_case
                HClosure chunk_case spaced_case compound_case
                subscript_none_case subscript_some_case pipeline_case
                form_case HClose HFd filename_redir_case HUnknownR) as HPi.
  pose proof (FormNode_holds PP PT PTP PCl PCh PSp PCo PSu PPi PF PR
                HString HVariable HTablePrimary closure_primary_case
                HListPrimary HChan HStatus HUnknown table_case pair_case
                HClosure chunk_case spaced_case compound_case
                subscript_none_case subscript_some_case pipeline_case
                form_case HClose HFd filename_redir_case HUnknownR) as HF.
  pose proof (Redir_holds PP PT PTP PCl PCh PSp PCo PSu PPi PF PR
                HString HVariable HTablePrimary closure_primary_case
                HListPrimary HChan HStatus HUnknown table_case pair_case
                HClosure chunk_case spaced_case compound_case
                subscript_none_case subscript_some_case pipeline_case
                form_case HClose HFd filename_redir_case HUnknownR) as HR.
  repeat split; intros x;
    [exact (HP x) | exact (HCl x) | exact (proj1 (HCh x)) | exact (HSp x)
    | exact (proj1 (HCo x)) | exact (proj1 (HSu x)) | exact (HPi x)
    | exact (HF x) | exact (HR x)].
Qed.

End WholePass.

(** ** What the discipline gives *)

(** X13.  The frame of a closure dies with the closure: when a closure has
    compiled, the scope stack is what it was before, whatever the body
    bound, [enclosed] is empty, and name and text are untouched. *)
Theorem closure_restores_the_scopes `{Builtins}
    (cn : ClosureNode) (cp : Compiler) r (cp' : Compiler) :
  specials_behave ->
  compileClosure cn cp = Ok r cp' ->
  scopes cp' = scopes cp /\ enclosed cp' = ∅ /\
  name cp' = name cp /\ text cp' = text cp.
Proof.
  intros Hsp HC.
  destruct (compile_behaves Hsp) as (_ & Hclo & _).
  specialize (Hclo cn cp). rewrite HC in Hclo. tauto.
Qed.

(** X14.  Compiling a chunk, a pipeline, a form, a compound word or a primary
    never changes the depth of the scope stack nor any frame below the
    innermost one, and never changes name or text. *)
Theorem compile_keeps_enclosing_frames `{Builtins} :
  specials_behave ->
  (forall ch cp op cp', compileChunk ch cp = Ok op cp' -> frame_ok cp cp') /\
  (forall pn cp op cp', compilePipeline pn cp = Ok op cp' -> frame_ok cp cp') /\
  (forall fn cp op cp', compileForm fn cp = Ok op cp' -> frame_ok cp cp') /\
  (forall tn cp op cp', compileCompound tn cp = Ok op cp' -> frame_ok cp cp') /\
  (forall fn cp op cp', compilePrimary fn cp = Ok op cp' -> frame_ok cp cp').
Proof.
  intros Hsp.
  destruct (compile_behaves Hsp)
    as (Hprim & _ & Hchunk & _ & Hcomp & _ & Hpipe & Hform & _).
  split; [|split; [|split; [|split]]].
  - intros ch cp op cp' HC. specialize (Hchunk ch cp). rewrite HC in Hchunk. tauto.
  - intros pn cp op cp' HC. specialize (Hpipe pn cp). rewrite HC in Hpipe. tauto.
  - intros fn cp op cp' HC. specialize (Hform fn cp). rewrite HC in Hform. tauto.
  - intros tn cp op cp' HC. specialize (Hcomp tn cp). rewrite HC in Hcomp. tauto.
  - intros fn cp op cp' HC. specialize (Hprim fn cp). rewrite HC in Hprim. tauto.
Qed.

(** X15.  The error that [Compile] returns comes without an op and names the
    compilation it comes from: it carries the name and the text given to
    [Compile], wherever in the tree it was raised. *)
Theorem compile_errors_carry_context `{Builtins}
    (nm txt : string) (n : ChunkNode) (scope : gmap string Type_)
    (op : option Op) (e : ContextualError) :
  specials_behave ->
  Compile nm txt n scope = Returned op (Some e) ->
  op = None /\ err_name e = nm /\ err_text e = txt.
Proof.
  intros Hsp. unfold Compile.
  destruct (compile_behaves Hsp) as (_ & _ & Hchunk & _).
  specialize (Hchunk n (startCompile nm txt scope)).
  destruct (compileChunk n (startCompile nm txt scope)) as [o cp'|[e'|msg]];
    simpl; try discriminate.
  intros [= <- <-]. simpl in Hchunk. tauto.
Qed.

(** X16.  Every name in the capture set of a closure is bound, with the recorded
    type, which is not nil, in a frame of the unit that holds the closure,
    provided [enclosed] was sound before. *)
Theorem captured_names_are_bound `{Builtins}
    (cn : ClosureNode) (cp : Compiler) (op : valuesOp)
    (enc : gmap string Type_) (cp' : Compiler) :
  specials_behave ->
  enclosed_sound cp ->
  compileClosure cn cp = Ok (op, enc) cp' ->
  forall k v, enc !! k = Some v ->
    exists i t, v = Some t /\ (i < length (scopes cp))%nat /\
                scopeAt (scopes cp) i k = Some t.
Proof.
  intros Hsp Hs HC.
  destruct (compile_behaves Hsp) as (_ & Hclo & _).
  specialize (Hclo cn cp). rewrite HC in Hclo.
  destruct Hclo as (_ & _ & _ & _ & Hsound). exact (Hsound Hs).
Qed.

(** X17.  The top level captures nothing: when a chunk has compiled from the
    state that [Compile] starts in, there is still the one root frame and
    [enclosed] is empty, closures and bindings in the chunk
    notwithstanding. *)
Theorem top_level_captures_nothing `{Builtins}
    (nm txt : string) (n : ChunkNode) (scope : gmap string Type_)
    (op : Op) (cp' : Compiler) :
  specials_behave ->
  compileChunk n (startCompile nm txt scope) = Ok op cp' ->
  length (scopes cp') = 1%nat /\ enclosed cp' = ∅.
Proof.
  intros Hsp HC.
  destruct (compile_behaves Hsp) as (_ & _ & Hchunk & _).
  specialize (Hchunk n (startCompile nm txt scope)). rewrite HC in Hchunk.
  destruct Hchunk as [(_ & _ & Hlen & _) Hs]. simpl in Hlen.
  split; [exact Hlen|].
  assert (Hstart : enclosed_sound (startCompile nm txt scope)).
  { intros k v Hk. simpl in Hk. rewrite lookup_empty in Hk. discriminate. }
  specialize (Hs Hstart). apply map_empty. intros k.
  destruct (enclosed cp' !! k) as [v|] eqn:E; [|reflexivity].
  destruct (Hs k v E) as (i & t & _ & Hi & _). rewrite Hlen in Hi. lia.
Qed.

(** The sample registry keeps the discipline. *)
Lemma sample_specials_behave : specials_behave (H := sampleBuiltins).
Proof.
  intros n bs fn Hreg. cbn [builtinSpecials sampleBuiltins] in Hreg.
  apply lookup_singleton_Some in Hreg as [_ <-].
  destruct fn as [p c [args] rs]. cbn [compile sampleVar].
  apply behaves_bind; [|intros u; apply behaves_ret].
  apply behaves_foldM. apply Forall_forall. intros tn _ acc.
  unfold bindArg.
  repeat match goal with
         | |- behaves (match ?x with _ => _ end) => destruct x
         end; first [apply behaves_pushVar | apply behaves_ret].
Qed.

(** ** No Go panic on well-formed trees *)

Lemma frame_ok_nonempty cp cp' :
  frame_ok cp cp' -> scopes cp <> [] -> scopes cp' <> [].
Proof.
  intros (_ & _ & Hl & _) Hne Hnil. rewrite Hnil in Hl.
  destruct (scopes cp); [congruence | discriminate].
Qed.

Lemma calm_ret {A} (a : A) : calm (ret a).
Proof. intros cp _ msg. discriminate. Qed.

Lemma calm_errorf {A} p m : calm (@errorf A p m).
Proof. intros cp _ msg. discriminate. Qed.

Lemma calm_bind_post {A C} (Q : A -> Prop) (m : M A) (k : A -> M C) :
  behaves m -> calm m ->
  (forall cp a cp', m cp = Ok a cp' -> Q a) ->
  (forall a, Q a -> calm (k a)) ->
  calm (bind m k).
Proof.
  intros Hb Hm HQ Hk cp Hne msg. unfold bind.
  specialize (Hb cp). specialize (Hm cp Hne msg).
  destruct (m cp) as [a cp1|v] eqn:E;
    [|intros [= ->]; exact (Hm eq_refl)].
  destruct Hb as [Hf _].
  exact (Hk a (HQ _ _ _ E) cp1 (frame_ok_nonempty _ _ Hf Hne) msg).
Qed.

Lemma calm_bind {A C} (m : M A) (k : A -> M C) :
  behaves m -> calm m -> (forall a, calm (k a)) -> calm (bind m k).
Proof.
  intros Hb Hm Hk. apply (calm_bind_post (fun _ => True)); auto.
Qed.

Lemma calm_ResolveVar n : calm (ResolveVar n).
Proof.
  intros cp _ msg. destruct (ResolveVar_total n cp) as [cp' ->]. discriminate.
Qed.

Lemma calm_mustResolveVar n p : calm (mustResolveVar n p).
Proof.
  apply calm_bind; [apply behaves_ResolveVar | apply calm_ResolveVar|].
  intros [t|]; [apply calm_ret | apply calm_errorf].
Qed.

Lemma calm_makeVar `{Builtins} n p : calm (makeVar n p).
Proof.
  apply calm_bind; [apply behaves_mustResolveVar | apply calm_mustResolveVar|].
  intros t. apply calm_ret.
Qed.

Lemma calm_resolveCommand `{Builtins} n cr : calm (resolveCommand n cr).
Proof.
  intros cp _ msg.
  destruct (resolveCommand_frame n cr cp) as (cr' & cp' & -> & _). discriminate.
Qed.

Lemma calm_forM {A C} (f : A -> M C) l :
  Forall (fun x => behaves (f x) /\ calm (f x)) l -> calm (forM f l).
Proof.
  induction 1 as [|x l [Hb Hc] Hl IH]; [apply calm_ret|].
  rewrite forM_cons. apply calm_bind; [exact Hb | exact Hc|].
  intros y. apply calm_bind; [|exact IH | intros ys; apply calm_ret].
  apply behaves_forM. eapply Forall_impl; [exact Hl|]. intros z [Hz _]. exact Hz.
Qed.

Lemma calm_pushVar n t : calm (pushVar n t).
Proof.
  intros cp Hne msg. unfold pushVar.
  destruct (scopes cp); [congruence | discriminate].
Qed.

(** The port loop on a table that every descriptor fits in. *)
Lemma calm_portLoop `{Builtins} (f : Redir -> M portOp) redirs :
  Forall (fun rd => behaves (f rd) /\ calm (f rd)) redirs ->
  forall ports,
    (forall rd, rd ∈ redirs -> 0 <= Fd rd < Z.of_nat (length ports)) ->
    calm (foldM (portStep f) redirs ports).
Proof.
  induction 1 as [|rd redirs [Hb Hc] Hl IH]; intros ports Hrange;
    [apply calm_ret|].
  assert (Hrd : 0 <= Fd rd < Z.of_nat (length ports))
    by (apply Hrange; left).
  assert (Hset : forall p, setPort ports (Fd rd) p
                           = ret (<[Z.to_nat (Fd rd) := Some p]> ports)).
  { intros p. unfold setPort.
    destruct (Z.leb_spec 0 (Fd rd)); [|lia].
    destruct (Z.ltb_spec (Fd rd) (Z.of_nat (length ports))); [reflexivity | lia]. }
  rewrite foldM_cons.
  apply (calm_bind_post
           (fun ports' => length ports' = length ports)).
  - apply behaves_bind; [exact Hb | intros p; apply behaves_setPort].
  - apply calm_bind; [exact Hb | exact Hc|].
    intros p. rewrite Hset. apply calm_ret.
  - intros cp ports' cp' Hstep.
    apply portStep_Ok in Hstep as (p & _ & _ & ->). apply length_insert.
  - intros ports' Hlen. apply IH. intros rd' Hin. rewrite Hlen.
    apply Hrange. right. exact Hin.
Qed.

Lemma fd_ok_spec fd : fd_ok fd = true <-> 0 <= fd < uintptr_modulus - 1.
Proof. unfold fd_ok. rewrite andb_true_iff, Z.leb_le, Z.ltb_lt. tauto. Qed.

Lemma wfRedir_fd rd : wfRedir rd = true -> 0 <= Fd rd < uintptr_modulus - 1.
Proof.
  destruct rd; simpl; try discriminate; rewrite ?andb_true_iff;
    intros Hwf; apply fd_ok_spec; tauto.
Qed.

Lemma calm_compilePorts `{Builtins} (f : Redir -> M portOp) redirs :
  Forall (fun rd => behaves (f rd) /\ calm (f rd)) redirs ->
  (forall rd, rd ∈ redirs -> 0 <= Fd rd < uintptr_modulus - 1) ->
  calm (compilePorts f redirs (countPorts redirs)).
Proof.
  intros Hall Hfd. apply calm_portLoop; [exact Hall|].
  intros rd Hin. rewrite length_replicate.
  destruct (countPorts_loop redirs 0 ltac:(split; [lia | reflexivity]))
    as (Hn & Hmax & _).
  fold (countPorts redirs) in Hn, Hmax.
  specialize (Hmax rd Hin). specialize (Hfd rd Hin).
  unfold uintptr_succ in Hmax. rewrite Z.mod_small in Hmax by lia. lia.
Qed.

Lemma calm_forwardEnclosed enc : calm (forwardEnclosed enc).
Proof.
  intros cp Hne msg.
  destruct (Compiler_cases cp) as [(nm & txt & e & ->)|(nm & txt & ss & fr & e & ->)];
    [destruct (Hne eq_refl)|].
  destruct (forwardEnclosed_mk enc nm txt ss fr e) as (e' & -> & _). discriminate.
Qed.

(** A closure whose body is calm is calm, with or without a frame. *)
Lemma calm_closure `{Builtins} nodes :
  behaves (forM compilePipeline nodes) -> calm (forM compilePipeline nodes) ->
  forall cp msg,
    compileClosure (mkClosureNode (mkChunkNode nodes)) cp <> Panicked (GoPanic msg).
Proof.
  intros Hb Hc [nm txt ss e] msg. cbn [compileClosure].
  rewrite (bind_eq_Ok _ _ _ _ _ (pushScope_mk nm txt ss e)).
  unfold bind at 1. specialize (Hb (mkCompiler nm txt (ss ++ [∅]) e)).
  specialize (Hc (mkCompiler nm txt (ss ++ [∅]) e)
                ltac:(simpl; destruct ss; discriminate) msg).
  destruct (forM compilePipeline nodes (mkCompiler nm txt (ss ++ [∅]) e))
    as [ops [nm2 txt2 ss2 e2]|v]; [|intros [= ->]; exact (Hc eq_refl)].
  destruct Hb as [(Hn & Ht & Hl & Hlow) _]. simpl in Hn, Ht, Hl, Hlow.
  destruct (snoc_of_frame ss ss2 ∅ Hl Hlow) as [fr ->].
  unfold bind at 1. unfold getEnclosed at 1. cbn [enclosed].
  unfold bind at 1. unfold setEnclosed at 1, set_enclosed. cbn [name text scopes].
  rewrite (bind_eq_Ok _ _ _ _ _ (popScope_mk nm2 txt2 ss fr ∅)). discriminate.
Qed.

Lemma Forall_wf {A} (wf : A -> bool) (Q : A -> Prop) (l : list A) :
  Forall (fun x => wf x = true -> Q x) l -> forallb wf l = true -> Forall Q l.
Proof.
  induction 1 as [|x l Hx Hl IH]; simpl; [constructor|].
  rewrite andb_true_iff. intros [Hw Hws]. constructor; auto.
Qed.

Section CalmPass.
Context `{Builtins}.
Hypothesis Hspecials : specials_behave.
Hypothesis Hcalm : specials_calm.

Let QP (fn : PrimaryNode) : Prop :=
  wfPrimary fn = true -> calm (compilePrimary fn).
Let QT (t : TableNode) : Prop :=
  wfTable t = true -> forall p, calm (compilePrimary (TablePrimary p t)).
Let QTP (tp : TablePair) : Prop :=
  wfPair tp = true ->
  calm (match tp with
        | mkTablePair k v =>
            let* kop := compileCompound k in
            let* vop := compileCompound v in
            ret (kop, vop)
        end).
Let QCl (cn : ClosureNode) : Prop :=
  wfClosure cn = true -> calm (compileClosure cn).
Let QCh (ch : ChunkNode) : Prop :=
  wfChunk ch = true ->
  calm (compileChunk ch) /\ calm (compileClosure (mkClosureNode ch)).
Let QSp (ln : SpacedNode) : Prop :=
  wfSpaced ln = true -> calm (compileSpaced ln).
Let QCo (tn : CompoundNode) : Prop :=
  wfCompound tn = true ->
  calm (compileCompound tn) /\
  Forall (fun sn => calm (compilePrimary (SubscriptLeft sn))) (CompoundNodes tn).
Let QSu (sn : SubscriptNode) : Prop :=
  wfSubscript sn = true ->
  calm (compileSubscript sn) /\ calm (compilePrimary (SubscriptLeft sn)).
Let QPi (pn : PipelineNode) : Prop :=
  wfPipeline pn = true -> calm (compilePipeline pn).
Let QF (fn : FormNode) : Prop := wfForm fn = true -> calm (compileForm fn).
Let QR (rd : Redir) : Prop := wfRedir rd = true -> calm (compileRedir rd).

(** Behaving and calm, for the elements of a list. *)
Lemma both_of_wf {A C} (f : A -> M C) (wf : A -> bool) (l : list A) :
  (forall x, behaves (f x)) ->
  Forall (fun x => wf x = true -> calm (f x)) l ->
  forallb wf l = true ->
  Forall (fun x => behaves (f x) /\ calm (f x)) l.
Proof.
  intros Hb Hall Hwf. pose proof (Forall_wf wf _ l Hall Hwf) as Hc.
  eapply Forall_impl; [exact Hc|]. intros x Hx. split; [apply Hb | exact Hx].
Qed.

Lemma calm_compounds (l : list CompoundNode) :
  Forall QCo l -> forallb wfCompound l = true ->
  calm (forM compileCompound l).
Proof.
  intros Hall Hwf. apply calm_forM.
  apply (both_of_wf compileCompound wfCompound);
    [exact (proj1 (proj2 (proj2 (proj2 (proj2 (compile_behaves Hspecials))))))
    | | exact Hwf].
  eapply Forall_impl; [exact Hall|]. intros tn Htn Hw. exact (proj1 (Htn Hw)).
Qed.

Lemma behaves_compounds (l : list CompoundNode) :
  behaves (forM compileCompound l).
Proof.
  apply behaves_forM. apply Forall_forall. intros tn _.
  exact (proj1 (proj2 (proj2 (proj2 (proj2 (compile_behaves Hspecials))))) tn).
Qed.

Lemma calm_table_case l d : Forall QCo l -> Forall QTP d -> QT (mkTableNode l d).
Proof.
  intros Hl Hd Hwf p. cbn [wfTable] in Hwf.
  apply andb_true_iff in Hwf as [Hwl Hwd]. cbn [compilePrimary].
  destruct (compile_behaves Hspecials) as (_ & _ & _ & _ & Bco & _).
  apply calm_bind; [apply behaves_compounds | exact (calm_compounds l Hl Hwl)|].
  intros lops.
  assert (Bpair : forall tp : TablePair,
            behaves (match tp with
                     | mkTablePair k v =>
                         let* kop := compileCompound k in
                         let* vop := compileCompound v in
                         ret (kop, vop)
                     end)).
  { intros [k v]. apply behaves_bind; [apply Bco|]. intros kop.
    apply behaves_bind; [apply Bco | intros vop; apply behaves_ret]. }
  apply calm_bind; [| |intros kvs; apply calm_ret].
  - apply behaves_forM. apply Forall_forall. intros tp _. apply Bpair.
  - apply calm_forM. apply (both_of_wf _ wfPair); [exact Bpair | exact Hd | exact Hwd].
Qed.

Lemma calm_pair_case k v : QCo k -> QCo v -> QTP (mkTablePair k v).
Proof.
  intros Hk Hv Hwf. cbn [wfPair] in Hwf. apply andb_true_iff in Hwf as [Hwk Hwv].
  destruct (compile_behaves Hspecials) as (_ & _ & _ & _ & Bco & _).
  apply calm_bind; [apply Bco | exact (proj1 (Hk Hwk))|]. intros kop.
  apply calm_bind; [apply Bco | exact (proj1 (Hv Hwv))|]. intros vop.
  apply calm_ret.
Qed.

Lemma calm_closure_primary_case p c : QCl c -> QP (ClosurePrimary p c).
Proof.
  intros Hc Hwf.
  assert (Hwc : wfClosure c = true) by (destruct c as [[nodes]]; exact Hwf).
  destruct (compile_behaves Hspecials) as (_ & Bclo & _).
  intros cp Hne msg. cbn [compilePrimary]. unfold bind at 1.
  specialize (Bclo c cp). specialize (Hc Hwc cp Hne msg).
  destruct (compileClosure c cp) as [[op enc] cp1|v];
    [|intros [= ->]; exact (Hc eq_refl)].
  destruct Bclo as (_ & _ & Hsc & _). unfold bind at 1.
  assert (Hne1 : scopes cp1 <> []) by (rewrite Hsc; exact Hne).
  pose proof (calm_forwardEnclosed enc cp1 Hne1 msg) as Hfw. cbn [fst snd].
  destruct (forwardEnclosed enc cp1) as [[] cp2|v];
    [discriminate | intros [= ->]; exact (Hfw eq_refl)].
Qed.

Lemma calm_chunk_case nodes : Forall QPi nodes -> QCh (mkChunkNode nodes).
Proof.
  intros Hall Hwf. cbn [wfChunk] in Hwf.
  destruct (compile_behaves Hspecials) as (_ & _ & _ & _ & _ & _ & Bpi & _).
  assert (Hboth : Forall (fun pn => behaves (compilePipeline pn) /\
                                    calm (compilePipeline pn)) nodes)
    by (apply (both_of_wf _ wfPipeline); assumption).
  assert (Bbody : behaves (forM compilePipeline nodes)).
  { apply behaves_forM. apply Forall_forall. intros pn _. apply Bpi. }
  assert (Cbody : calm (forM compilePipeline nodes)) by (apply calm_forM; exact Hboth).
  split.
  - apply calm_bind; [exact Bbody | exact Cbody | intros ops; apply calm_ret].
  - intros cp _ msg. exact (calm_closure nodes Bbody Cbody cp msg).
Qed.

Lemma calm_spaced_case nodes : Forall QCo nodes -> QSp (mkSpacedNode nodes).
Proof.
  intros Hall Hwf. cbn [wfSpaced] in Hwf.
  apply calm_bind; [apply behaves_compounds | exact (calm_compounds _ Hall Hwf)|].
  intros ops. apply calm_ret.
Qed.

Lemma calm_compound_case p sg nodes :
  Forall QSu nodes -> QCo (mkCompoundNode p sg nodes).
Proof.
  intros Hall Hwf. cbn [wfCompound] in Hwf.
  pose proof (Forall_wf wfSubscript _ nodes Hall Hwf) as Hc.
  destruct (compile_behaves Hspecials) as (_ & _ & _ & _ & _ & Bsu & _).
  split.
  - cbn [compileCompound]. apply calm_bind.
    + apply behaves_forM. apply Forall_forall. intros sn _. apply Bsu.
    + apply calm_forM. eapply Forall_impl; [exact Hc|].
      intros sn [Hsn _]. split; [apply Bsu | exact Hsn].
    + intros ops. destruct (sg =? NoSigil); [apply calm_ret|].
      apply calm_bind; [apply behaves_resolveCommand | apply calm_resolveCommand|].
      intros cr. apply calm_ret.
  - cbn [CompoundNodes]. eapply Forall_impl; [exact Hc|]. intros sn [_ Hl]. exact Hl.
Qed.

Lemma calm_subscript_none_case l : QP l -> QSu (mkSubscriptNode l None).
Proof. intros Hl Hwf. cbn [wfSubscript] in Hwf. split; exact (Hl Hwf). Qed.

Lemma calm_subscript_some_case l r :
  QP l -> QCo r -> QSu (mkSubscriptNode l (Some r)).
Proof.
  intros Hl Hr Hwf. cbn [wfSubscript] in Hwf.
  apply andb_true_iff in Hwf as [Hwl Hwr].
  destruct (compile_behaves Hspecials) as (Bp & _ & _ & _ & Bco & _).
  split; [|exact (Hl Hwl)]. cbn [compileSubscript].
  apply calm_bind; [apply Bp | exact (Hl Hwl)|]. intros left.
  apply calm_bind; [apply Bco | exact (proj1 (Hr Hwr))|]. intros right.
  apply calm_ret.
Qed.

Lemma calm_pipeline_case p nodes : Forall QF nodes -> QPi (mkPipelineNode p nodes).
Proof.
  intros Hall Hwf. cbn [wfPipeline] in Hwf.
  destruct (compile_behaves Hspecials) as (_ & _ & _ & _ & _ & _ & _ & Bf & _).
  apply calm_bind; [| |intros ops; apply calm_ret].
  - apply behaves_forM. apply Forall_forall. intros fn _. apply Bf.
  - apply calm_forM. apply (both_of_wf _ wfForm); assumption.
Qed.

Lemma calm_form_case p c a rs :
  QCo c -> QSp a -> Forall QR rs -> QF (mkFormNode p c a rs).
Proof.
  intros Hc Ha Hrs Hwf. destruct a as [args]. cbn [wfForm] in Hwf.
  apply andb_true_iff in Hwf as [Hwf Hwr].
  apply andb_true_iff in Hwf as [Hwc Hwa].
  destruct (Hc Hwc) as [_ Hnodes]. destruct c as [cpos sg cnodes].
  cbn [CompoundNodes] in Hnodes.
  destruct (compile_behaves Hspecials)
    as (Bp & _ & _ & Bsp & _ & _ & _ & _ & Br).
  unfold QF.
  destruct cnodes as [|[command [r|]] [|sn cnodes]];
    cbn [compileForm]; try apply calm_errorf.
  apply Forall_cons in Hnodes as [Hcmd _]. cbn [SubscriptLeft] in Hcmd.
  apply calm_bind; [apply Bp | exact Hcmd|]. intros cmdOp.
  apply (calm_bind_post
           (fun cr => cr_commandType cr = commandBuiltinSpecial ->
                      exists n bs, cr_builtinSpecial cr = Some bs /\
                                   builtinSpecials !! n = Some bs)).
  - destruct command;
      first [apply behaves_resolveCommand | apply behaves_ret | apply behaves_errorf].
  - destruct command;
      first [apply calm_resolveCommand | apply calm_ret | apply calm_errorf].
  - intros cp cr cp' Hres Hty. destruct command; try discriminate.
    + destruct (resolveCommand_special _ _ _ _ Hres Hty) as (bs & Hbs & Hreg).
      eauto.
    + injection Hres as <- _. discriminate.
  - intros cr Hcr.
    assert (Hports : Forall (fun rd => behaves (compileRedir rd) /\
                                       calm (compileRedir rd)) rs)
      by (apply (both_of_wf _ wfRedir); assumption).
    apply calm_bind.
    + apply behaves_compilePorts. apply Forall_forall. intros rd _. apply Br.
    + apply calm_compilePorts; [exact Hports|].
      intros rd Hin. apply wfRedir_fd.
      rewrite forallb_forall in Hwr. apply Hwr. apply list_elem_of_In. exact Hin.
    + intros ports.
      destruct (decide (cr_commandType cr = commandBuiltinSpecial)) as [Hty|Hty].
      * destruct (Hcr Hty) as (n & bs & -> & Hreg).
        apply calm_bind; [exact (Hspecials n bs _ Hreg) | exact (Hcalm n bs _ Hreg)|].
        intros sop. apply calm_ret.
      * apply calm_bind; [apply Bsp | exact (Ha Hwa) | intros t; apply calm_ret].
Qed.

Lemma calm_filename_case p fd flag f : QCo f -> QR (FilenameRedir p fd flag f).
Proof.
  intros Hf Hwf. cbn [wfRedir] in Hwf. apply andb_true_iff in Hwf as [_ Hw].
  destruct (compile_behaves Hspecials) as (_ & _ & _ & _ & Bco & _).
  unfold QR. cbn [compileRedir].
  apply calm_bind; [apply Bco | exact (proj1 (Hf Hw)) | intros op; apply calm_ret].
Qed.

(** A well-formed chunk compiles without a Go panic. *)
Lemma chunk_is_calm (ch : ChunkNode) :
  wfChunk ch = true -> calm (compileChunk ch).
Proof.
  assert (HString : forall p s, QP (StringPrimary p s))
    by (intros p s _; apply calm_ret).
  assert (HVariable : forall p s, QP (VariablePrimary p s))
    by (intros p s _; apply calm_makeVar).
  assert (HTablePrimary : forall p t, QT t -> QP (TablePrimary p t)).
  { intros p [l d] Ht Hwf. exact (Ht Hwf p). }
  assert (HListPrimary : forall p s, QSp s -> QP (ListPrimary p s)).
  { intros p [nodes] Hs Hwf. exact (Hs Hwf). }
  assert (HChan : forall p pn, QPi pn -> QP (ChanCapturePrimary p pn)).
  { intros p pn Hpn Hwf. unfold QP. cbn [compilePrimary].
    destruct (compile_behaves Hspecials) as (_ & _ & _ & _ & _ & _ & Bpi & _).
    apply calm_bind; [apply Bpi | exact (Hpn Hwf) | intros op; apply calm_ret]. }
  assert (HStatus : forall p pn, QPi pn -> QP (StatusCapturePrimary p pn))
    by (intros p pn Hpn Hwf; exact (Hpn Hwf)).
  assert (HUnknown : forall p t, QP (UnknownPrimary p t))
    by (intros p t Hwf; discriminate).
  assert (HClosure : forall c, QCh c -> QCl (mkClosureNode c))
    by (intros c Hc Hwf; exact (proj2 (Hc Hwf))).
  assert (HClose : forall p fd, QR (CloseRedir p fd))
    by (intros p fd _; apply calm_ret).
  assert (HFd : forall p fd old, QR (FdRedir p fd old))
    by (intros p fd old _; apply calm_ret).
  assert (HUnknownR : forall fd, QR (UnknownRedir fd))
    by (intros fd Hwf; discriminate).
  intros Hwf.
  exact (proj1 (ChunkNode_holds QP QT QTP QCl QCh QSp QCo QSu QPi QF QR
                  HString HVariable HTablePrimary calm_closure_primary_case
                  HListPrimary HChan HStatus HUnknown calm_table_case
                  calm_pair_case HClosure calm_chunk_case calm_spaced_case
                  calm_compound_case calm_subscript_none_case
                  calm_subscript_some_case calm_pipeline_case calm_form_case
                  HClose HFd calm_filename_case HUnknownR ch Hwf)).
Qed.

End CalmPass.


Lemma calm_foldM {A S} (f : S -> A -> M S) l :
  Forall (fun x => forall acc, behaves (f acc x) /\ calm (f acc x)) l ->
  forall acc, calm (foldM f l acc).
Proof.
  induction 1 as [|x l Hx Hl IH]; intros acc; [apply calm_ret|].
  rewrite foldM_cons.
  apply calm_bind; [apply Hx | apply Hx | exact IH].
Qed.

(** The sample registry is calm. *)
Lemma sample_specials_calm : specials_calm (H := sampleBuiltins).
Proof.
  intros n bs fn Hreg. cbn [builtinSpecials sampleBuiltins] in Hreg.
  apply lookup_singleton_Some in Hreg as [_ <-].
  destruct fn as [p c [args] rs]. cbn [compile sampleVar].
  assert (Hstep : forall tn, behaves (bindArg tn) /\ calm (bindArg tn)).
  { intros tn. unfold bindArg.
    repeat match goal with
           | |- behaves (match ?x with _ => _ end) /\ _ => destruct x
           end;
      first [split; [apply behaves_pushVar | apply calm_pushVar]
            | split; [apply behaves_ret | apply calm_ret]]. }
  apply calm_bind; [| |intros u; apply calm_ret].
  - apply behaves_foldM. apply Forall_forall. intros tn _ acc. apply Hstep.
  - apply calm_foldM. apply Forall_forall. intros tn _ acc. apply Hstep.
Qed.

(** ** The further properties on the sample programs *)

Lemma succeeds_Ok {A} (r : Result A) (d : A) :
  succeeds r = true -> r = Ok (valueOf r d) (stateOf r).
Proof. destruct r; [reflexivity | discriminate]. Qed.

Section SamplesFurther.
#[local] Existing Instance sampleBuiltins.

Lemma bound_name_resolves_locally_witness :
  (pushVar "y" (Some ClosureType) ;; ResolveVar "y") sampleRoot
  = (pushVar "y" (Some ClosureType) ;; ret (Some ClosureType)) sampleRoot.
Proof. apply bound_name_resolves_locally. discriminate. Defined.

Lemma popVar_after_pushVar_witness :
  (pushVar "y" None ;; popVar "y") sampleRoot = Ok tt sampleRoot.
Proof.
  apply (proj2 (popVar_after_pushVar "y" None sampleRoot)
           {[ "x" := Some (OtherType 7) ]}); reflexivity.
Defined.

Lemma no_frame_behaviour_witness :
  ResolveVar "x" NewCompiler = Ok None NewCompiler /\
  pushVar "x" (Some StringType) NewCompiler = Panicked index_out_of_range /\
  popScope NewCompiler = Panicked index_out_of_range.
Proof.
  destruct (no_frame_behaviour NewCompiler "x" (Some StringType) 0 eq_refl)
    as (Hr & _ & Hpush & _ & _ & Hpop).
  auto.
Defined.

Lemma single_frame_never_captures_witness :
  exists t,
    ResolveVar "x" (startCompile "script" "echo $x" {[ "x" := Some StringType ]})
    = Ok t (startCompile "script" "echo $x" {[ "x" := Some StringType ]}).
Proof.
  eexists.
  refine (proj1 (single_frame_never_captures "x" newCommandResolution
                   (startCompile "script" "echo $x" {[ "x" := Some StringType ]})
                   _)).
  simpl. lia.
Defined.

Lemma command_must_be_string_or_closure_witness :
  compileForm
    (mkFormNode 0 (mkCompoundNode 0 0 []) (mkSpacedNode [varref 3 "y"])
       [UnknownRedir 1]) sampleRoot
  = Panicked (Exception (NewContextualError "script" "{ { echo $x } }" 0
                           command_msg)).
Proof.
  refine (proj1 (command_must_be_string_or_closure 0 0 0 []
                   (mkSpacedNode [varref 3 "y"]) [UnknownRedir 1] sampleRoot) _).
  intros command. discriminate.
Defined.

Lemma fd_overflow_never_compiles_witness :
  Fd (CloseRedir 9 (2 ^ 64 - 1)) = uintptr_modulus - 1 /\
  succeeds
    (compileForm (form 0 "echo" [] [CloseRedir 5 2; CloseRedir 9 (2 ^ 64 - 1)])
       sampleRoot) = false.
Proof.
  split; [reflexivity|].
  destruct (compileForm
              (form 0 "echo" [] [CloseRedir 5 2; CloseRedir 9 (2 ^ 64 - 1)])
              sampleRoot) as [op cp'|v] eqn:HC; [|reflexivity].
  exfalso.
  refine (fd_overflow_never_compiles _ _ (CloseRedir 9 (2 ^ 64 - 1))
            _ _ op cp' HC).
  - right. left.
  - simpl. unfold uintptr_modulus. lia.
Defined.

Lemma first_failure_wins_witness :
  Compile "script" "echo ok; echo $y; echo >?" failingChunk ∅
  = Returned None
      (Some (NewContextualError "script" "echo ok; echo $y; echo >?" 14
               "undefined variable $y")).
Proof.
  assert (HS : succeeds
                 (forM compilePipeline
                    [ mkPipelineNode 0 [ form 0 "echo" [word 5 "ok"] [] ] ]
                    (startCompile "script" "echo ok; echo $y; echo >?" ∅))
               = true) by (vm_compute; reflexivity).
  assert (HP : compilePipeline
                 (mkPipelineNode 9 [ form 9 "echo" [varref 14 "y"] [] ])
                 (stateOf
                    (forM compilePipeline
                       [ mkPipelineNode 0 [ form 0 "echo" [word 5 "ok"] [] ] ]
                       (startCompile "script" "echo ok; echo $y; echo >?" ∅)))
               = Panicked
                   (Exception
                      (NewContextualError "script" "echo ok; echo $y; echo >?"
                         14 "undefined variable $y")))
    by (vm_compute; reflexivity).
  exact (proj2 (first_failure_wins _ _ _ _ _
                  [ mkPipelineNode 18 [ form 18 "echo" [] [UnknownRedir 1] ] ]
                  _ _ _ (succeeds_Ok _ [] HS) HP)).
Defined.

Lemma closure_restores_the_scopes_witness :
  exists r cp',
    compileClosure lossClosure sampleRoot = Ok r cp' /\
    scopes cp' = scopes sampleRoot /\ enclosed cp' = ∅.
Proof.
  assert (HS : succeeds (compileClosure lossClosure sampleRoot) = true)
    by (vm_compute; reflexivity).
  assert (HC := succeeds_Ok _ (valuesOpZero, ∅) HS).
  eexists _, _. split; [exact HC|].
  destruct (closure_restores_the_scopes lossClosure sampleRoot _ _
              sample_specials_behave HC) as (Hs & He & _).
  auto.
Defined.

Lemma compile_keeps_enclosing_frames_witness :
  exists op cp',
    compileForm (form 11 "var" [word 15 "y"] []) sampleRoot = Ok op cp' /\
    frame_ok sampleRoot cp'.
Proof.
  assert (HS : succeeds
                  (compileForm (form 11 "var" [word 15 "y"] []) sampleRoot)
                = true) by (vm_compute; reflexivity).
  assert (HC := succeeds_Ok _
                  (combineForm valuesOpZero valuesOpZero [] newCommandResolution 0)
                  HS).
  eexists _, _. split; [exact HC|].
  destruct (compile_keeps_enclosing_frames sample_specials_behave)
    as (_ & _ & Hform & _).
  exact (Hform _ _ _ _ HC).
Defined.

Lemma compile_errors_carry_context_witness :
  Compile "script" "echo ok; echo $y; echo >?" failingChunk ∅
  = Returned None
      (Some (NewContextualError "script" "echo ok; echo $y; echo >?" 14
               "undefined variable $y")) /\
  err_name (NewContextualError "script" "echo ok; echo $y; echo >?" 14
              "undefined variable $y") = "script".
Proof.
  assert (HC : Compile "script" "echo ok; echo $y; echo >?" failingChunk ∅
               = Returned None
                   (Some (NewContextualError "script"
                            "echo ok; echo $y; echo >?" 14
                            "undefined variable $y")))
    by (vm_compute; reflexivity).
  split; [exact HC|].
  exact (proj1 (proj2 (compile_errors_carry_context _ _ _ _ _ _
                         sample_specials_behave HC))).
Defined.

Lemma captured_names_are_bound_witness :
  exists op enc cp',
    compileClosure leakClosure sampleRoot = Ok (op, enc) cp' /\
    enc !! "x" = Some (Some (OtherType 7)) /\
    exists i t, Some (OtherType 7) = Some t /\
                (i < length (scopes sampleRoot))%nat /\
                scopeAt (scopes sampleRoot) i "x" = Some t.
Proof.
  assert (HS : succeeds (compileClosure leakClosure sampleRoot) = true)
    by (vm_compute; reflexivity).
  assert (HC := succeeds_Ok _ (valuesOpZero, ∅) HS).
  rewrite (surjective_pairing (valueOf _ _)) in HC.
  assert (Hx : (valueOf (compileClosure leakClosure sampleRoot)
                  (valuesOpZero, ∅)).2 !! "x" = Some (Some (OtherType 7)))
    by (vm_compute; reflexivity).
  eexists _, _, _. split; [exact HC|]. split; [exact Hx|].
  refine (captured_names_are_bound leakClosure sampleRoot _ _ _
            sample_specials_behave _ HC "x" _ Hx).
  intros k v Hk. vm_compute in Hk. discriminate.
Defined.

Lemma top_level_captures_nothing_witness :
  exists op cp',
    compileChunk leakChunk
      (startCompile "script" leakSource {[ "x" := Some StringType ]})
    = Ok op cp' /\
    length (scopes cp') = 1%nat /\ enclosed cp' = ∅.
Proof.
  assert (HS : succeeds
                  (compileChunk leakChunk
                     (startCompile "script" leakSource
                        {[ "x" := Some StringType ]})) = true)
    by (vm_compute; reflexivity).
  assert (HC := succeeds_Ok _ (combineChunk []) HS).
  eexists _, _. split; [exact HC|].
  exact (top_level_captures_nothing _ _ _ _ _ _ sample_specials_behave HC).
Defined.


End SamplesFurther.
